(** * Interpolation search: a shallow embedding of [interpolation_search.cpp]

    The development models the two functions of the program that carry
    behaviour, [interpolationSearch] and [generateSortedArray], and proves
    the properties its specification states about them; the rounds of
    [testPerformance] are modelled as the searches it times.

    - [int] values are integers of [Z], kept in the 32-bit signed range by
      an explicit two's-complement [Int.wrap] after every arithmetic
      operation of the source.
    - [double] values are IEEE-754 binary64 numbers, given by the
      executable specification [SpecFloat] of the standard library.
    - reading [arr[i]] is fallible (an index outside the vector has no
      defined behaviour); every read, every floating-point division and
      every probe of the search is recorded in a trace, so that statements
      about what the search touches can be made.
    - the random-number engine and the distribution of
      [generateSortedArray] are parameters, known by the contract of
      [uniform_int_distribution]. *)

From Stdlib Require Import ZArith List Lia Bool.
From Stdlib Require Import Orders Sorted Permutation Mergesort.
From Stdlib Require Import Floats.SpecFloat.
From Stdlib Require Import Reals Lra.
Import ListNotations.

Local Open Scope Z_scope.

(** * Definitions *)

(** ** Machine integers *)

Module Int.

Definition min_signed : Z := - 2 ^ 31.
Definition max_signed : Z := 2 ^ 31 - 1.
Definition modulus : Z := 2 ^ 32.

(** The set of values of the C++ type [int]. *)
Definition in_range (z : Z) : Prop := min_signed <= z <= max_signed.

Definition in_rangeb (z : Z) : bool :=
  (min_signed <=? z) && (z <=? max_signed).

(** Reduction of a mathematical result to the [int] that holds its low
    32 bits (two's complement). *)
Definition wrap (z : Z) : Z := (z - min_signed) mod modulus + min_signed.

Definition add (a b : Z) : Z := wrap (a + b).
Definition sub (a b : Z) : Z := wrap (a - b).
Definition mul (a b : Z) : Z := wrap (a * b).

(** [std::size_t] on the 64-bit targets of the program. *)
Definition size_modulus : Z := 2 ^ 64.

(** [int high = arr.size() - 1]: the subtraction is done on [size_t]
    (modulo [2^64]) and the result is narrowed to [int]. *)
Definition of_size_minus_one (n : nat) : Z :=
  wrap ((Z.of_nat n - 1) mod size_modulus).

End Int.

(** ** Double precision numbers *)

Module Double.

Definition prec : Z := 53.
Definition emax : Z := 1024.

Definition t : Type := spec_float.

(** Conversion [int -> double]; exact, since an [int] has fewer than 53
    significant bits ([of_int_spec]). *)
Definition of_int (z : Z) : t := binary_normalize prec emax z 0 false.

(** The arithmetic of binary64: every operation rounds its exact result
    to nearest, ties to even (the multiplication and the addition of
    line 39 are two operations, each rounded). *)
Definition add : t -> t -> t := SFadd prec emax.
Definition mul : t -> t -> t := SFmul prec emax.
Definition div : t -> t -> t := SFdiv prec emax.

(** Conversion [double -> int]: the fractional part is discarded
    (truncation toward zero).  The C++ standard leaves the conversion
    undefined when the truncated value is not an [int] (or the operand
    is a NaN or an infinity); the x86-64 instruction the conversion
    compiles to ([cvttsd2si]) then delivers [INT_MIN], which is what the
    model returns. *)
Definition to_int (x : t) : Z :=
  match x with
  | S754_zero _ => 0
  | S754_finite s m e =>
      let a := Z.shiftl (Zpos m) e in
      let v := if s then - a else a in
      if Int.in_rangeb v then v else Int.min_signed
  | S754_infinity _ | S754_nan => Int.min_signed
  end.

End Double.

(** ** Traces and outcomes *)

(** What an execution of the search does to its environment. *)
Inductive event : Type :=
| Load (i : Z)          (* the element [arr[i]] is read *)
| Divide (divisor : Z)  (* a floating-point division by [(double) divisor] *)
| Probe (pos : Z).      (* the search settles on the probe position [pos] *)

Inductive outcome (A : Type) : Type :=
| Value (a : A)
| OutOfBounds           (* [arr[i]] with [i] outside the vector *)
| OutOfFuel.            (* the iteration budget of the model is used up *)

Arguments Value {A} a.
Arguments OutOfBounds {A}.
Arguments OutOfFuel {A}.

(** A computation yields the trace of its events and its outcome. *)
Definition M (A : Type) : Type := (list event * outcome A)%type.

Definition ret {A} (a : A) : M A := ([], Value a).

Definition bind {A B} (m : M A) (k : A -> M B) : M B :=
  match m with
  | (tr, Value a) => let (tr', o) := k a in (tr ++ tr', o)
  | (tr, OutOfBounds) => (tr, OutOfBounds)
  | (tr, OutOfFuel) => (tr, OutOfFuel)
  end.

Definition emit (e : event) : M unit := ([e], Value tt).

Definition trace_of {A} (m : M A) : list event := fst m.
Definition outcome_of {A} (m : M A) : outcome A := snd m.

Declare Scope search_scope.
Delimit Scope search_scope with search.
Notation "x <- m ;; k" := (bind m (fun x => k))
  (at level 61, m at next level, right associativity) : search_scope.
Notation "m ;;; k" := (bind m (fun _ => k))
  (at level 61, right associativity) : search_scope.
Local Open Scope search_scope.

Definition is_probe (e : event) : bool :=
  match e with Probe _ => true | _ => false end.

(** ** The vector *)

Definition vec : Type := list Z.

(** The element at a valid index (0 elsewhere; only used in statements). *)
Definition at_index (arr : vec) (i : Z) : Z := nth (Z.to_nat i) arr 0.

Definition valid_index (arr : vec) (i : Z) : Prop :=
  0 <= i < Z.of_nat (length arr).

(** [arr[i]] *)
Definition load (arr : vec) (i : Z) : M Z :=
  ([Load i],
   if (0 <=? i) && (i <? Z.of_nat (length arr))
   then Value (at_index arr i)
   else OutOfBounds).

(** The sortedness invariant of the data model:
    [sequence[i] <= sequence[i+1]] for all valid [i]. *)
Definition non_decreasing (arr : vec) : Prop :=
  forall i, 0 <= i -> i + 1 < Z.of_nat (length arr) ->
    at_index arr i <= at_index arr (i + 1).

(** Every element is a value of type [int]. *)
Definition int_vec (arr : vec) : Prop := Forall Int.in_range arr.

(** ** [interpolationSearch] *)

(** [std::clamp(v, lo, hi)] *)
Definition clamp (v lo hi : Z) : Z :=
  if v <? lo then lo else if hi <? v then hi else v.

(** The right-hand side of line 39,
    [low + (((double)(high - low) / (arr[high] - arr[low])) * (target - arr[low]))],
    from the three elements it reads, converted to [int] by the
    initialisation of [pos].  The two subtractions of elements are [int]
    subtractions; their results are converted to [double] by the usual
    arithmetic conversions. *)
Definition estimate (low high a_high a_low a_low' target : Z) : Z :=
  let span := Double.of_int (Int.sub high low) in
  let slope := Double.div span (Double.of_int (Int.sub a_high a_low)) in
  let offset := Double.mul slope (Double.of_int (Int.sub target a_low')) in
  Double.to_int (Double.add (Double.of_int low) offset).

(** How one passage through the [while] statement ends. *)
Inductive step : Type :=
| Exit                      (* the loop condition is false *)
| Return (r : Z)            (* a [return] inside the body *)
| Continue (low high : Z).  (* the body ends with new bounds *)

(** The loop condition
    [low <= high && target >= arr[low] && target <= arr[high]],
    with the short-circuit evaluation of [&&]. *)
Definition loop_condition (arr : vec) (target low high : Z) : M bool :=
  if low <=? high then
    a_low <- load arr low ;;
    if target >=? a_low then
      a_high <- load arr high ;;
      ret (target <=? a_high)
    else ret false
  else ret false.

(** The body of the loop, lines 33-51. *)
Definition loop_body (arr : vec) (target low high : Z) : M step :=
  a_high <- load arr high ;;
  a_low <- load arr low ;;
  if a_high =? a_low then
    a_low' <- load arr low ;;
    ret (Return (if a_low' =? target then low else -1))
  else
    a_high <- load arr high ;;
    a_low <- load arr low ;;
    emit (Divide (Int.sub a_high a_low)) ;;;
    a_low' <- load arr low ;;
    let pos := estimate low high a_high a_low a_low' target in
    let pos := clamp pos low high in
    emit (Probe pos) ;;;
    a_pos <- load arr pos ;;
    if a_pos =? target then ret (Return pos)
    else
      a_pos <- load arr pos ;;
      if a_pos <? target then ret (Continue (Int.add pos 1) high)
      else ret (Continue low (Int.sub pos 1)).

Definition iteration (arr : vec) (target low high : Z) : M step :=
  c <- loop_condition arr target low high ;;
  if c then loop_body arr target low high else ret Exit.

(** The [while] loop followed by the final [return -1]. *)
Fixpoint search_loop (fuel : nat) (arr : vec) (target low high : Z) : M Z :=
  match fuel with
  | O => ([], OutOfFuel)
  | S fuel' =>
      s <- iteration arr target low high ;;
      match s with
      | Exit => ret (-1)
      | Return r => ret r
      | Continue low' high' => search_loop fuel' arr target low' high'
      end
  end.

(** [int interpolationSearch(const vector<int> &arr, int target)].
    The budget of one iteration more than the vector has elements is never
    used up, and a larger one changes nothing (see the termination
    theorem). *)
Definition interpolationSearch (arr : vec) (target : Z) : M Z :=
  let low := 0 in
  let high := Int.of_size_minus_one (length arr) in
  search_loop (S (length arr)) arr target low high.

(** The not-found sentinel. *)
Definition not_found : Z := -1.

(** The states [(low, high)] in which the search evaluates its loop
    condition. *)
Inductive visits (arr : vec) (target : Z) : Z -> Z -> Prop :=
| visits_first :
    visits arr target 0 (Int.of_size_minus_one (length arr))
| visits_next low high tr low' high' :
    visits arr target low high ->
    iteration arr target low high = (tr, Value (Continue low' high')) ->
    visits arr target low' high'.

(** ** The probe position *)

(** The position the loop body probes, from the bounds and the elements
    at the bounds: the estimate of line 39 clamped by line 41. *)
Definition probe_position (low high a_low a_high target : Z) : Z :=
  clamp (estimate low high a_high a_low a_low target) low high.

(** The position of the specification,
    [low + floor((high - low) * (t - S[low]) / (S[high] - S[low]))],
    in exact integer arithmetic. *)
Definition exact_position (low high a_low a_high target : Z) : Z :=
  low + (high - low) * (target - a_low) / (a_high - a_low).

(** When the probe is computed: the loop condition holds for a window of
    more than one element whose end elements differ. *)
Definition probe_computed (arr : vec) (target low high : Z) : Prop :=
  0 <= low /\ low < high /\ high < Z.of_nat (length arr)
  /\ Int.in_range low /\ Int.in_range high
  /\ at_index arr high <> at_index arr low
  /\ at_index arr low <= target <= at_index arr high.

(** ** What the proofs say about one iteration and about the loop *)

(** What an event of one iteration may be, started from [(low, high)]:
    reads and probes stay inside the window, and a division is by the
    [int] difference of the two end elements, which are distinct. *)
Definition step_event_ok (arr : vec) (low high : Z) (e : event) : Prop :=
  match e with
  | Load i => low <= i <= high
  | Probe pos => low <= pos <= high
  | Divide d =>
      low <= high
      /\ at_index arr high <> at_index arr low
      /\ d = Int.sub (at_index arr high) (at_index arr low)
  end.

(** The same for the rest of the loop, whose windows lie inside
    [[low, high]]. *)
Definition event_ok (arr : vec) (low high : Z) (e : event) : Prop :=
  match e with
  | Load i => low <= i <= high
  | Probe pos => low <= pos <= high
  | Divide d =>
      exists i j,
        low <= i <= high /\ low <= j <= high
        /\ at_index arr j <> at_index arr i
        /\ d = Int.sub (at_index arr j) (at_index arr i)
  end.

(** The reads the loop condition makes from [(low, high)]. *)
Definition bound_load (low high : Z) (e : event) : Prop :=
  e = Load low \/ e = Load high.

(** Every access is inside the vector and no divisor is zero. *)
Definition event_safe (arr : vec) (e : event) : Prop :=
  match e with
  | Load i => valid_index arr i
  | Probe pos => valid_index arr pos
  | Divide d => d <> 0
  end.

(** What the end of an iteration tells about the window it started from. *)
Definition step_ok (arr : vec) (target low high : Z) (s : step) : Prop :=
  match s with
  | Exit =>
      ~ (low <= high /\ at_index arr low <= target <= at_index arr high)
  | Return r =>
      low <= high /\ at_index arr low <= target <= at_index arr high /\
      ((at_index arr high = at_index arr low /\ r = low)
       \/ (at_index arr high <> at_index arr low
           /\ low <= r <= high /\ at_index arr r = target))
  | Continue low' high' =>
      low <= high /\ at_index arr low <= target <= at_index arr high /\
      at_index arr high <> at_index arr low /\
      exists pos,
        low <= pos <= high /\
        ((at_index arr pos < target /\ low' = pos + 1 /\ high' = high)
         \/ (target < at_index arr pos /\ low' = low /\ high' = pos - 1))
  end.

(** What the loop returns from the window [[low, high]]: the index of an
    occurrence of the target inside the window, or [-1], in which case a
    sorted vector has no occurrence inside the window. *)
Definition loop_post (arr : vec) (target low high r : Z) : Prop :=
  (low <= r <= high /\ at_index arr r = target)
  \/ (r = -1 /\
      (non_decreasing arr ->
       forall k, low <= k <= high -> at_index arr k <> target)).

(** ** [generateSortedArray] *)

(** [std::sort] with the default comparison, by the merge sort of the
    standard library: on integers the result of sorting is determined by
    the input (the only non-decreasing permutation of it). *)
Module IntOrder <: TotalLeBool.
Definition t : Type := Z.
Definition leb : t -> t -> bool := Z.leb.
Theorem leb_total : forall a b, leb a b = true \/ leb b a = true.
Proof.
  intros a b. unfold leb.
  destruct (Z.leb_spec a b); [left; reflexivity|right].
  apply Z.leb_le. lia.
Qed.
End IntOrder.

Module IntSort := Sort IntOrder.

Definition sort (arr : vec) : vec := IntSort.sort arr.

(** [arr[i] = x] on the index range of the vector. *)
Fixpoint store_nat (arr : vec) (i : nat) (x : Z) : vec :=
  match arr with
  | [] => []
  | a :: rest =>
      match i with
      | O => x :: rest
      | S i' => a :: store_nat rest i' x
      end
  end.

Definition store (arr : vec) (i x : Z) : vec :=
  if i <? 0 then arr else store_nat arr (Z.to_nat i) x.

Section Generator.

(** The state of the engine [mt19937 gen], seeded from [random_device]. *)
Variable engine : Type.

(** [dist(gen)] for [uniform_int_distribution<> dist(a, b)]: the number
    drawn and the next state of the engine.  The library defines the
    distribution only for [a <= b]; [None] is a call without defined
    result. *)
Variable draw : Z -> Z -> engine -> option (Z * engine).

(** [for (int i = 0; i < size; i++) arr[i] = dist(gen);] with [n]
    iterations left ([n = size - i]), the next of them at index [i]. *)
Fixpoint fill (n : nat) (i b : Z) (arr : vec) (gen : engine) : option vec :=
  match n with
  | O => Some arr
  | S n' =>
      match draw 1 b gen with
      | None => None
      | Some (x, gen') => fill n' (Int.add i 1) b (store arr i x) gen'
      end
  end.

(** [vector<int> generateSortedArray(int size)], from the seeded engine.
    A negative [size] makes the constructor [vector<int> arr(size)]
    throw.  The construction [uniform_int_distribution<> dist(1, size * 10)]
    of line 74 comes before the loop and has the precondition [a <= b] of
    the library: with a bound below 1 it has no defined behaviour, also
    when the loop that follows makes no call (as for [size = 0], where
    the bound is 0).  In both cases no vector is returned. *)
Definition generateSortedArray (size : Z) (gen : engine) : option vec :=
  if size <? 0 then None
  else
    let arr := repeat 0 (Z.to_nat size) in
    let b := Int.mul size 10 in
    if 1 <=? b then
      match fill (Z.to_nat size) 0 b arr gen with
      | None => None
      | Some arr' => Some (sort arr')
      end
    else None.

(** The contract of [uniform_int_distribution]: constructed with
    [a <= b], a call returns a number of [[a, b]]. *)
Definition draw_contract : Prop :=
  forall a b gen, a <= b ->
    exists x gen', draw a b gen = Some (x, gen') /\ a <= x <= b.

End Generator.

Arguments fill {engine} draw n i b arr gen.
Arguments generateSortedArray {engine} draw size gen.
Arguments draw_contract {engine} draw.

(** A distribution over a linear congruential engine: within its contract
    it returns [a + gen mod (b - a + 1)], outside it has no result. *)
Definition lcg_draw (a b gen : Z) : option (Z * Z) :=
  if a <=? b
  then Some (a + gen mod (b - a + 1), (gen * 1103515245 + 12345) mod 2 ^ 31)
  else None.

(** ** The value of a double *)

Definition bpow (e : Z) : R := powerRZ 2 e.

(** The relative error of one rounding, [2^-52] (twice the unit
    roundoff: enough for the bounds below). *)
Definition eps : R := (/ 4503599627370496)%R.

(** [x] is a positive normal number of value [v], with its exponent in
    [[elo, ehi]]. *)
Definition normal (x : spec_float) (v : R) (elo ehi : Z) : Prop :=
  exists m e,
    x = S754_finite false m e
    /\ Zpos (digits2_pos m) = 53
    /\ elo <= e <= ehi
    /\ v = (IZR (Zpos m) * bpow e)%R.

(** ** Probes, draws and the benchmark rounds *)

(** The positions probed, in the order of the trace. *)
Fixpoint probes (tr : list event) : list Z :=
  match tr with
  | [] => []
  | Probe pos :: rest => pos :: probes rest
  | _ :: rest => probes rest
  end.

(** The numbers [n] successive calls [dist(gen)] return, for
    [uniform_int_distribution<> dist(1, b)]; none when a call has no
    result. *)
Fixpoint draws {engine : Type} (draw : Z -> Z -> engine -> option (Z * engine))
  (n : nat) (b : Z) (gen : engine) : option (list Z) :=
  match n with
  | O => Some []
  | S n' =>
      match draw 1 b gen with
      | None => None
      | Some (x, gen') =>
          match draws draw n' b gen' with
          | None => None
          | Some xs => Some (x :: xs)
          end
      end
  end.

(** [vector<int> inputSizes = {10, 100, 1000, 10000, 100000}] *)
Definition inputSizes : list Z := [10; 100; 1000; 10000; 100000].

(** What one passage through the loop of [testPerformance] computes. *)
Record round : Type := {
  round_size : Z;
  round_arr : vec;
  round_target : Z;
  round_search : M Z
}.

(** [arr[rand() % size]]: [%] is the remainder of the truncating division
    of [int]s; an index outside the vector has no defined behaviour. *)
Definition pick (arr : vec) (rnd size : Z) : option Z :=
  match outcome_of (load arr (Z.rem rnd size)) with
  | Value x => Some x
  | _ => None
  end.

(** Lines 104-111: the array is generated, a target is picked from it at
    the index [rand() % size], and the search for it is run.  [gen] is
    the engine [generateSortedArray] seeds for this round and [rnd] the
    value [rand()] returns.  The two readings of the clock around the
    search and the line printed from them are left out: they are not
    values of the program. *)
Definition performance_round {engine : Type}
  (draw : Z -> Z -> engine -> option (Z * engine))
  (size : Z) (gen : engine) (rnd : Z) : option round :=
  match generateSortedArray draw size gen with
  | None => None
  | Some arr =>
      match pick arr rnd size with
      | None => None
      | Some target =>
          Some {| round_size := size;
                  round_arr := arr;
                  round_target := target;
                  round_search := interpolationSearch arr target |}
      end
  end.

(** [for (int size : inputSizes) ...]: the rounds in order, the [k]-th of
    them with the engine [seed k] and the random number [rand k]; a round
    without result ends the run. *)
Fixpoint performance_rounds {engine : Type}
  (draw : Z -> Z -> engine -> option (Z * engine))
  (sizes : list Z) (k : nat) (seed : nat -> engine) (rand : nat -> Z)
  : option (list round) :=
  match sizes with
  | [] => Some []
  | size :: rest =>
      match performance_round draw size (seed k) (rand k) with
      | None => None
      | Some r =>
          match performance_rounds draw rest (S k) seed rand with
          | None => None
          | Some rs => Some (r :: rs)
          end
      end
  end.

(** [void testPerformance()], as the searches it times. *)
Definition testPerformance {engine : Type}
  (draw : Z -> Z -> engine -> option (Z * engine))
  (seed : nat -> engine) (rand : nat -> Z) : option (list round) :=
  performance_rounds draw inputSizes 0 seed rand.

(** * Proofs *)

(** ** Machine integers *)

Lemma wrap_in_range z : Int.in_range (Int.wrap z).
Proof.
  unfold Int.in_range, Int.wrap, Int.modulus, Int.min_signed, Int.max_signed.
  pose proof (Z.mod_pos_bound (z - - 2 ^ 31) (2 ^ 32) ltac:(lia)). lia.
Qed.

Lemma wrap_id z : Int.in_range z -> Int.wrap z = z.
Proof.
  unfold Int.in_range, Int.wrap, Int.modulus, Int.min_signed, Int.max_signed.
  intros H. rewrite Z.mod_small; lia.
Qed.

(** Wrapping changes a value by a multiple of [2^32]. *)
Lemma wrap_congruent z : exists k, Int.wrap z = z + k * Int.modulus.
Proof.
  unfold Int.wrap. exists (- ((z - Int.min_signed) / Int.modulus)).
  pose proof (Z.div_mod (z - Int.min_signed) Int.modulus) as H.
  unfold Int.modulus in *. specialize (H ltac:(lia)). lia.
Qed.

(** The difference of two distinct [int]s does not wrap to zero. *)
Lemma sub_nonzero a b :
  Int.in_range a -> Int.in_range b -> a <> b -> Int.sub a b <> 0.
Proof.
  unfold Int.sub. intros Ha Hb Hab.
  destruct (wrap_congruent (a - b)) as [k Hk]. rewrite Hk.
  unfold Int.in_range, Int.min_signed, Int.max_signed, Int.modulus in *.
  lia.
Qed.

Lemma of_size_in_range n : Int.in_range (Int.of_size_minus_one n).
Proof. apply wrap_in_range. Qed.

(** The narrowed [size() - 1] never exceeds the last index. *)
Lemma of_size_upper n : Int.of_size_minus_one n < Z.of_nat n.
Proof.
  unfold Int.of_size_minus_one.
  destruct n as [|n].
  - vm_compute. reflexivity.
  - set (m := (Z.of_nat (S n) - 1) mod Int.size_modulus).
    assert (0 <= m <= Z.of_nat (S n) - 1) as Hm.
    { subst m. unfold Int.size_modulus. split.
      - apply Z.mod_pos_bound. lia.
      - apply Z.mod_le; lia. }
    destruct (Z_le_gt_dec m Int.max_signed) as [Hle|Hgt].
    + rewrite wrap_id; [lia|].
      unfold Int.in_range, Int.min_signed, Int.max_signed in *. lia.
    + pose proof (wrap_in_range m) as Hr.
      unfold Int.in_range in Hr. lia.
Qed.

(** Up to [2^31] elements the narrowing is exact. *)
Lemma of_size_exact n :
  Z.of_nat n <= 2 ^ 31 -> Int.of_size_minus_one n = Z.of_nat n - 1.
Proof.
  intros Hn. unfold Int.of_size_minus_one.
  destruct n as [|n].
  - vm_compute. reflexivity.
  - unfold Int.size_modulus. rewrite Z.mod_small by lia.
    apply wrap_id.
    unfold Int.in_range, Int.min_signed, Int.max_signed. lia.
Qed.

Lemma clamp_range v lo hi : lo <= hi -> lo <= clamp v lo hi <= hi.
Proof.
  intros H. unfold clamp.
  destruct (Z.ltb_spec v lo); [lia|].
  destruct (Z.ltb_spec hi v); lia.
Qed.

(** ** Vectors *)

Lemma load_valid arr i :
  valid_index arr i -> load arr i = ([Load i], Value (at_index arr i)).
Proof.
  unfold valid_index, load. intros [H0 H1].
  destruct (Z.leb_spec 0 i); [|lia].
  destruct (Z.ltb_spec i (Z.of_nat (length arr))); [reflexivity|lia].
Qed.

(** The adjacent-pairs invariant gives the order of any two positions. *)
Lemma non_decreasing_pairs arr :
  non_decreasing arr ->
  forall i j, 0 <= i -> i <= j -> j < Z.of_nat (length arr) ->
    at_index arr i <= at_index arr j.
Proof.
  intros Hs i j Hi Hij Hj.
  replace j with (i + Z.of_nat (Z.to_nat (j - i))) in * by lia.
  induction (Z.to_nat (j - i)) as [|d IH].
  - rewrite Z.add_0_r. lia.
  - rewrite Nat2Z.inj_succ in *.
    specialize (IH ltac:(lia) ltac:(lia)).
    specialize (Hs (i + Z.of_nat d) ltac:(lia) ltac:(lia)).
    replace (i + Z.succ (Z.of_nat d)) with (i + Z.of_nat d + 1) by lia.
    lia.
Qed.

Lemma In_at_index arr v :
  In v arr <-> exists k, valid_index arr k /\ at_index arr k = v.
Proof.
  unfold valid_index, at_index. split.
  - intros H. destruct (In_nth arr v 0 H) as (n & Hn & Hv).
    exists (Z.of_nat n). rewrite Nat2Z.id. split; [lia|assumption].
  - intros (k & Hk & <-). apply nth_In. lia.
Qed.

Lemma at_index_in_range arr i :
  int_vec arr -> Int.in_range (at_index arr i).
Proof.
  intros H. unfold at_index.
  destruct (Nat.lt_ge_cases (Z.to_nat i) (length arr)) as [Hlt|Hge].
  - apply (proj1 (Forall_forall _ _) H). apply nth_In. assumption.
  - rewrite nth_overflow by assumption.
    unfold Int.in_range, Int.min_signed, Int.max_signed. lia.
Qed.

(** A vector of [n] copies of [c]. *)
Lemma at_index_repeat c n i :
  0 <= i < Z.of_nat n -> at_index (repeat c n) i = c.
Proof.
  intros H. unfold at_index. apply nth_repeat_lt. lia.
Qed.

Lemma non_decreasing_repeat c n : non_decreasing (repeat c n).
Proof.
  intros i Hi Hn. rewrite repeat_length in Hn.
  rewrite !at_index_repeat by lia. lia.
Qed.

(** ** Events *)

Lemma step_event_ok_window arr low high e :
  step_event_ok arr low high e -> event_ok arr low high e.
Proof.
  destruct e as [i|d|pos]; cbn; auto.
  intros (Hle & Hne & Hd). exists low, high. repeat split; auto; lia.
Qed.

Lemma event_ok_widen arr low high low' high' e :
  low' <= low -> high <= high' ->
  event_ok arr low high e -> event_ok arr low' high' e.
Proof.
  intros Hl Hh. destruct e as [i|d|pos]; cbn; try lia.
  intros (i & j & Hi & Hj & Hne & Hd).
  exists i, j. repeat split; auto; lia.
Qed.

Lemma event_ok_safe arr low high e :
  int_vec arr -> 0 <= low -> high < Z.of_nat (length arr) ->
  event_ok arr low high e -> event_safe arr e.
Proof.
  intros Hint Hlo Hhi. destruct e as [i|d|pos]; cbn;
    unfold valid_index; try lia.
  intros (i & j & Hi & Hj & Hne & ->).
  apply sub_nonzero; auto using at_index_in_range.
Qed.

(** Discharges [Forall (step_event_ok ...)] on an explicit trace. *)
Ltac events :=
  repeat first [apply Forall_nil | apply Forall_cons | apply Forall_app];
  cbn [step_event_ok]; auto; try lia; try (repeat split; auto; lia).

(** ** One iteration of the loop *)

Section Iteration.

Variables (arr : vec) (target low high : Z).
Hypothesis low_nonneg : 0 <= low.
Hypothesis high_valid : high < Z.of_nat (length arr).
Hypothesis low_int : Int.in_range low.
Hypothesis high_int : Int.in_range high.

Lemma loop_condition_spec :
  exists tr,
    loop_condition arr target low high =
      (tr, Value ((low <=? high) && (at_index arr low <=? target)
                  && (target <=? at_index arr high)))
    /\ Forall (step_event_ok arr low high) tr
    /\ Forall (bound_load low high) tr.
Proof.
  unfold loop_condition, bound_load.
  destruct (Z.leb_spec low high) as [Hle|Hgt]; cbn [andb].
  - rewrite (load_valid arr low) by (unfold valid_index; lia).
    cbn [bind]. rewrite Z.geb_leb.
    destruct (Z.leb_spec (at_index arr low) target); cbn [andb].
    + rewrite (load_valid arr high) by (unfold valid_index; lia).
      cbn [bind ret app]. eexists. split; [reflexivity|].
      split; [events|].
      repeat first [apply Forall_nil | apply Forall_cons]; auto.
    + cbn [ret app]. eexists. split; [reflexivity|].
      split; [events|].
      repeat first [apply Forall_nil | apply Forall_cons]; auto.
  - eexists. split; [reflexivity|]. split; constructor.
Qed.

Lemma loop_body_spec :
  low <= high ->
  at_index arr low <= target <= at_index arr high ->
  exists tr s,
    loop_body arr target low high = (tr, Value s)
    /\ Forall (step_event_ok arr low high) tr
    /\ step_ok arr target low high s.
Proof.
  intros Hle Hrange. unfold loop_body.
  assert (valid_index arr low) as Vlow by (unfold valid_index; lia).
  assert (valid_index arr high) as Vhigh by (unfold valid_index; lia).
  rewrite (load_valid arr high Vhigh), (load_valid arr low Vlow).
  cbn [bind].
  destruct (Z.eqb_spec (at_index arr high) (at_index arr low)) as [Heq|Hne].
  - cbn [bind ret app].
    do 2 eexists. split; [reflexivity|]. split; [events|].
    cbn. destruct (Z.eqb_spec (at_index arr low) target) as [Ht|Ht].
    + auto.
    + lia.
  - cbn [bind emit].
    set (pos := clamp _ low high).
    assert (low <= pos <= high) as Hpos by (apply clamp_range; lia).
    rewrite (load_valid arr pos) by (unfold valid_index; lia).
    cbn [bind].
    destruct (Z.eqb_spec (at_index arr pos) target) as [Ht|Ht].
    + cbn [ret app]. do 2 eexists. split; [reflexivity|].
      split; [events|]. cbn. auto 10.
    + destruct (Z.ltb_spec (at_index arr pos) target) as [Hlt|Hge];
        cbn [ret app]; do 2 eexists; (split; [reflexivity|]);
        (split; [events|]).
      * cbn. repeat (split; [lia|]).
        exists pos. split; [lia|]. left.
        split; [lia|]. split; [|reflexivity].
        apply wrap_id. unfold Int.in_range in *.
        assert (pos <> high) by (intros ->; lia). lia.
      * cbn. repeat (split; [lia|]).
        exists pos. split; [lia|]. right.
        split; [lia|]. split; [reflexivity|].
        apply wrap_id. unfold Int.in_range in *.
        assert (pos <> low) by (intros ->; lia). lia.
Qed.

Lemma iteration_spec :
  exists tr s,
    iteration arr target low high = (tr, Value s)
    /\ Forall (step_event_ok arr low high) tr
    /\ step_ok arr target low high s
    /\ (s = Exit -> Forall (bound_load low high) tr).
Proof.
  unfold iteration.
  destruct loop_condition_spec as (tr & -> & Hev & Hld).
  cbn [bind].
  destruct (Z.leb_spec low high) as [Hle|Hgt]; cbn [andb].
  2:{ cbn [ret]. rewrite app_nil_r. do 2 eexists.
      split; [reflexivity|]. repeat split; auto. cbn. lia. }
  destruct (Z.leb_spec (at_index arr low) target) as [Hl|Hl]; cbn [andb].
  2:{ cbn [ret]. rewrite app_nil_r. do 2 eexists.
      split; [reflexivity|]. repeat split; auto. cbn. lia. }
  destruct (Z.leb_spec target (at_index arr high)) as [Hh|Hh].
  2:{ cbn [ret]. rewrite app_nil_r. do 2 eexists.
      split; [reflexivity|]. repeat split; auto. cbn. lia. }
  destruct (loop_body_spec Hle (conj Hl Hh)) as (tr' & s & -> & Hev' & Hs).
  do 2 eexists. split; [reflexivity|].
  split; [apply Forall_app; auto|]. split; [assumption|].
  intros ->. cbn in Hs. lia.
Qed.

(** A window that continues is strictly inside the one it came from. *)
Lemma continue_shrinks low' high' :
  step_ok arr target low high (Continue low' high') ->
  low <= low' /\ low' <= high' /\ high' <= high
  /\ high' - low' < high - low.
Proof.
  intros (Hle & Hr & Hne & pos & Hpos & Hcase).
  destruct Hcase as [(Hlt & -> & ->)|(Hgt & -> & ->)].
  - assert (pos <> high) by (intros ->; lia). lia.
  - assert (pos <> low) by (intros ->; lia). lia.
Qed.

End Iteration.

(** ** The loop *)

Lemma search_loop_spec (k : nat) :
  forall arr target low high,
    0 <= low -> high < Z.of_nat (length arr) ->
    Int.in_range low -> Int.in_range high ->
    high - low + 1 <= Z.of_nat k ->
    exists tr r,
      (forall fuel, (k < fuel)%nat ->
         search_loop fuel arr target low high = (tr, Value r))
      /\ Forall (event_ok arr low high) tr
      /\ loop_post arr target low high r.
Proof.
  induction k as [|k IH]; intros arr target low high Hlo Hhi Ilo Ihi Hk;
    destruct (iteration_spec arr target low high Hlo Hhi Ilo Ihi)
      as (tr & s & Hit & Hev & Hs & _);
    apply (Forall_impl _ (step_event_ok_window arr low high)) in Hev;
    (destruct s as [|r|low' high']; cbn in Hs; try lia).
  - (* no budget is needed: the window is empty *)
    exists tr, (-1). split; [|split].
    + intros [|fuel] Hf; [lia|]. cbn [search_loop]. rewrite Hit.
      cbn [bind ret]. rewrite app_nil_r. reflexivity.
    + assumption.
    + right. split; [reflexivity|]. intros _ j Hj. lia.
  - (* the loop condition fails *)
    exists tr, (-1). split; [|split].
    + intros [|fuel] Hf; [lia|]. cbn [search_loop]. rewrite Hit.
      cbn [bind ret]. rewrite app_nil_r. reflexivity.
    + assumption.
    + right. split; [reflexivity|]. intros Hsort j Hj Heq.
      apply Hs. split; [lia|].
      pose proof (non_decreasing_pairs arr Hsort low j) as H1.
      pose proof (non_decreasing_pairs arr Hsort j high) as H2.
      lia.
  - (* the body returns *)
    exists tr, r. split; [|split].
    + intros [|fuel] Hf; [lia|]. cbn [search_loop]. rewrite Hit.
      cbn [bind ret]. rewrite app_nil_r. reflexivity.
    + assumption.
    + left. destruct Hs as (Hle & Hr & [[Heq ->]|(Hne & Hin & Hat)]).
      * split; lia.
      * auto.
  - (* the body narrows the window *)
    pose proof (continue_shrinks arr target low high low' high' Hs)
      as Hshrink.
    destruct Hs as (Hle & Hr & Hne & pos & Hpos & Hcase).
    destruct (IH arr target low' high') as (tr' & r & Hrun & Hev' & Hpost);
      try (unfold Int.in_range in *; lia).
    exists (tr ++ tr'), r. split; [|split].
    + intros [|fuel] Hf; [lia|]. cbn [search_loop]. rewrite Hit.
      cbn [bind]. rewrite (Hrun fuel) by lia. reflexivity.
    + apply Forall_app. split; [assumption|].
      eapply Forall_impl; [|exact Hev'].
      intros e. apply event_ok_widen; lia.
    + destruct Hpost as [[Hin Hat]|[-> Habs]].
      * left. split; [lia|assumption].
      * right. split; [reflexivity|]. intros Hsort j Hj Heq.
        destruct (Z_le_gt_dec low' j) as [Hl|Hl];
          [destruct (Z_le_gt_dec j high') as [Hh|Hh]|].
        -- apply (Habs Hsort j); auto.
        -- destruct Hcase as [(Hlt & -> & ->)|(Hgt & -> & ->)]; [lia|].
           pose proof (non_decreasing_pairs arr Hsort pos j). lia.
        -- destruct Hcase as [(Hlt & -> & ->)|(Hgt & -> & ->)]; [|lia].
           pose proof (non_decreasing_pairs arr Hsort j pos). lia.
Qed.

(** ** The whole search *)

(** The loop invariant. *)
Lemma visits_invariant arr target low high :
  visits arr target low high ->
  0 <= low /\ high < Z.of_nat (length arr)
  /\ Int.in_range low /\ Int.in_range high.
Proof.
  induction 1 as [|low high tr low' high' Hv IH Hit].
  - pose proof (of_size_upper (length arr)).
    pose proof (of_size_in_range (length arr)).
    unfold Int.in_range, Int.min_signed, Int.max_signed in *. lia.
  - destruct IH as (Hlo & Hhi & Ilo & Ihi).
    destruct (iteration_spec arr target low high Hlo Hhi Ilo Ihi)
      as (tr0 & s & Hit' & _ & Hs & _).
    rewrite Hit in Hit'. injection Hit' as _ <-.
    pose proof (continue_shrinks arr target low high low' high' Hs).
    unfold Int.in_range in *. lia.
Qed.

Lemma interpolationSearch_spec arr target :
  let high := Int.of_size_minus_one (length arr) in
  exists tr r,
    (forall fuel, (length arr < fuel)%nat ->
       search_loop fuel arr target 0 high = (tr, Value r))
    /\ interpolationSearch arr target = (tr, Value r)
    /\ Forall (event_ok arr 0 high) tr
    /\ loop_post arr target 0 high r.
Proof.
  intros high.
  pose proof (of_size_upper (length arr)) as Hup.
  pose proof (of_size_in_range (length arr)) as Hin.
  destruct (search_loop_spec (length arr) arr target 0 high)
    as (tr & r & Hrun & Hev & Hpost); subst high;
    try (unfold Int.in_range, Int.min_signed, Int.max_signed in *; lia).
  exists tr, r. repeat split; auto.
  unfold interpolationSearch. apply Hrun. lia.
Qed.

(** A window whose bounds are inverted ends the search at once. *)
Lemma search_loop_inverted fuel arr target low high :
  high < low -> search_loop (S fuel) arr target low high = ([], Value (-1)).
Proof.
  intros H. cbn [search_loop]. unfold iteration, loop_condition.
  destruct (Z.leb_spec low high); [lia|]. reflexivity.
Qed.

(** With [2^31 + 1] elements [size() - 1] narrows to [INT_MIN]. *)
Lemma interpolationSearch_too_long arr target :
  Z.of_nat (length arr) = 2 ^ 31 + 1 ->
  interpolationSearch arr target = ([], Value (-1)).
Proof.
  intros H. unfold interpolationSearch, Int.of_size_minus_one. rewrite H.
  replace (Int.wrap ((2 ^ 31 + 1 - 1) mod Int.size_modulus))
    with (- 2 ^ 31) by (vm_compute; reflexivity).
  apply search_loop_inverted. lia.
Qed.

(** The one probe of an iteration that computes one. *)
Lemma loop_body_probe arr target low high :
  probe_computed arr target low high ->
  exists tr s,
    loop_body arr target low high = (tr, Value s)
    /\ filter is_probe tr
       = [Probe (probe_position low high (at_index arr low)
                   (at_index arr high) target)].
Proof.
  intros (Hlo & Hlt & Hhi & Ilo & Ihi & Hne & Hrange).
  unfold loop_body, probe_position.
  assert (valid_index arr low) as Vlow by (unfold valid_index; lia).
  assert (valid_index arr high) as Vhigh by (unfold valid_index; lia).
  rewrite (load_valid arr high Vhigh), (load_valid arr low Vlow).
  cbn [bind].
  destruct (Z.eqb_spec (at_index arr high) (at_index arr low)) as [Heq|_];
    [contradiction|].
  cbn [bind emit].
  set (pos := clamp _ low high).
  assert (low <= pos <= high) as Hpos by (apply clamp_range; lia).
  rewrite (load_valid arr pos) by (unfold valid_index; lia).
  cbn [bind].
  destruct (Z.eqb_spec (at_index arr pos) target) as [Ht|Ht].
  - cbn [ret app]. do 2 eexists. split; reflexivity.
  - destruct (Z.ltb_spec (at_index arr pos) target);
      cbn [ret app]; do 2 eexists; split; reflexivity.
Qed.

(** ** Binary64 arithmetic

    What the operations of [SpecFloat] compute on the positive normal
    numbers the estimate meets: the significand of at least 53 bits is
    truncated to 53 bits, the result is the truncated significand or its
    successor, and so within [2^-52] of the exact value, relatively. *)

(** [digits2_pos p] is the number of bits of [p]. *)
Lemma digits2_bounds p :
  2 ^ (Zpos (digits2_pos p) - 1) <= Zpos p < 2 ^ Zpos (digits2_pos p).
Proof.
  induction p as [p IH|p IH|]; cbn [digits2_pos].
  - rewrite Pos2Z.inj_succ.
    replace (Z.succ (Zpos (digits2_pos p)) - 1)
      with (Z.succ (Zpos (digits2_pos p) - 1)) by lia.
    rewrite !Z.pow_succ_r by lia. lia.
  - rewrite Pos2Z.inj_succ.
    replace (Z.succ (Zpos (digits2_pos p)) - 1)
      with (Z.succ (Zpos (digits2_pos p) - 1)) by lia.
    rewrite !Z.pow_succ_r by lia. lia.
  - cbn. lia.
Qed.

Lemma digits2_unique p k :
  2 ^ (k - 1) <= Zpos p < 2 ^ k -> Zpos (digits2_pos p) = k.
Proof.
  intros [Hlo Hhi]. pose proof (digits2_bounds p) as [Dlo Dhi].
  set (d := Zpos (digits2_pos p)) in *.
  assert (0 < d) by (subst d; lia).
  assert (0 < k).
  { destruct (Z_lt_le_dec 0 k); [assumption|].
    exfalso. destruct (Z.eq_dec k 0) as [->|].
    - cbn in Hhi. lia.
    - rewrite Z.pow_neg_r in Hhi by lia. lia. }
  destruct (Z_lt_le_dec d k) as [Hlt|Hge].
  - exfalso.
    assert (2 ^ d <= 2 ^ (k - 1)) by (apply Z.pow_le_mono_r; lia). lia.
  - destruct (Z_lt_le_dec k d) as [Hlt|Hle]; [|lia].
    exfalso.
    assert (2 ^ k <= 2 ^ (d - 1)) by (apply Z.pow_le_mono_r; lia). lia.
Qed.

(** Shifting right by [n] bits divides the significand by [2^n]. *)
Lemma iter_pos_nat {A} (f : A -> A) p x :
  SpecFloat.iter_pos f p x = Nat.iter (Pos.to_nat p) f x.
Proof.
  revert x. induction p as [p IH|p IH|]; intros x; cbn [SpecFloat.iter_pos].
  - rewrite !IH, Pos2Nat.inj_xI.
    replace (S (2 * Pos.to_nat p))%nat
      with (Pos.to_nat p + (Pos.to_nat p + 1))%nat by lia.
    rewrite !Nat.iter_add. reflexivity.
  - rewrite !IH, Pos2Nat.inj_xO.
    replace (2 * Pos.to_nat p)%nat
      with (Pos.to_nat p + Pos.to_nat p)%nat by lia.
    rewrite Nat.iter_add. reflexivity.
  - reflexivity.
Qed.

Lemma shr_1_m mrs : 0 <= shr_m mrs -> shr_m (shr_1 mrs) = shr_m mrs / 2.
Proof.
  destruct mrs as [m r s]. cbn [shr_m shr_1]. intros Hm.
  destruct m as [|[p|p|]|p]; cbn [shr_m].
  - reflexivity.
  - apply Z.div_unique with 1; lia.
  - apply Z.div_unique with 0; lia.
  - reflexivity.
  - lia.
Qed.

Lemma iter_shr_1_m n mrs :
  0 <= shr_m mrs ->
  shr_m (Nat.iter n shr_1 mrs) = shr_m mrs / 2 ^ Z.of_nat n.
Proof.
  intros Hm. induction n as [|n IH].
  - cbn. rewrite Z.div_1_r. reflexivity.
  - rewrite Nat.iter_succ, shr_1_m.
    + rewrite IH, Nat2Z.inj_succ, Z.pow_succ_r by lia.
      rewrite Z.div_div by lia. f_equal. lia.
    + rewrite IH. apply Z.div_pos; lia.
Qed.

Lemma shr_spec mrs e n :
  0 <= shr_m mrs ->
  shr_m (fst (shr mrs e n)) = shr_m mrs / 2 ^ Z.max 0 n
  /\ snd (shr mrs e n) = e + Z.max 0 n.
Proof.
  intros Hm. unfold shr. destruct n as [|p|p]; cbn [fst snd].
  - cbn. rewrite Z.div_1_r. lia.
  - rewrite iter_pos_nat, iter_shr_1_m by assumption.
    rewrite positive_nat_Z. split; [f_equal; f_equal; lia|lia].
  - cbn. rewrite Z.div_1_r. lia.
Qed.

(** Rounding picks the truncated significand or its successor. *)
Lemma round_nearest_even_cases a l :
  round_nearest_even a l = a \/ round_nearest_even a l = a + 1.
Proof.
  unfold round_nearest_even.
  destruct l as [|[| |]]; auto. destruct (Z.even a); auto.
Qed.

Lemma shr_record_of_loc_m m l : shr_m (shr_record_of_loc m l) = m.
Proof. destruct l as [|[| |]]; reflexivity. Qed.

Lemma fexp_normal e :
  -1021 <= e -> fexp Double.prec Double.emax e = e - 53.
Proof.
  unfold fexp, emin, Double.prec, Double.emax. lia.
Qed.

Lemma pow2_split a b : 0 <= a -> 0 <= b -> 2 ^ (a + b) = 2 ^ a * 2 ^ b.
Proof. intros. apply Z.pow_add_r; assumption. Qed.

(** Rounding an integer significand of at least 53 bits: the result is a
    normal number whose significand is the truncated one or its
    successor. *)
Lemma binary_round_aux_spec s mx ex lx :
  0 < mx -> 53 <= Zdigits2 mx -> -1074 <= ex -> ex + Zdigits2 mx <= 1023 ->
  let k := Zdigits2 mx - 53 in
  exists m e m1,
    binary_round_aux Double.prec Double.emax s mx ex lx = S754_finite s m e
    /\ Zpos (digits2_pos m) = 53
    /\ ex + k <= e <= ex + k + 1
    /\ (m1 = mx / 2 ^ k \/ m1 = mx / 2 ^ k + 1)
    /\ (lx = loc_Exact -> k = 0 -> m1 = mx)
    /\ Zpos m * 2 ^ (e - (ex + k)) = m1.
Proof.
  intros Hmx Hd Hex Hmax k.
  destruct mx as [|p|p]; try lia.
  cbn [Zdigits2] in *. set (d := Zpos (digits2_pos p)) in *.
  pose proof (digits2_bounds p) as [Dlo Dhi]. fold d in Dlo, Dhi.
  assert (0 <= k) as Hk by (subst k; lia).
  assert (0 < 2 ^ k) as Hpk by (apply Z.pow_pos_nonneg; lia).
  (* the truncated significand *)
  set (a := Zpos p / 2 ^ k).
  assert (2 ^ 52 <= a < 2 ^ 53) as Ha.
  { subst a. split.
    - apply Z.div_le_lower_bound; [lia|].
      replace (d - 1) with (k + 52) in Dlo by (subst k; lia).
      rewrite pow2_split in Dlo by lia. lia.
    - apply Z.div_lt_upper_bound; [lia|].
      replace d with (k + 53) in Dhi by (subst k; lia).
      rewrite pow2_split in Dhi by lia. lia. }
  unfold binary_round_aux, shr_fexp. cbn [Zdigits2]. fold d.
  rewrite fexp_normal by lia.
  replace (d + ex - 53 - ex) with k by (subst k; lia).
  pose proof (shr_spec (shr_record_of_loc (Zpos p) lx) ex k) as Hs1.
  rewrite shr_record_of_loc_m in Hs1. specialize (Hs1 ltac:(lia)).
  rewrite Z.max_r in Hs1 by lia. fold a in Hs1.
  assert (lx = loc_Exact -> k = 0 ->
          shr (shr_record_of_loc (Zpos p) lx) ex k
          = (Build_shr_record (Zpos p) false false, ex)) as Hexact.
  { intros -> ->. reflexivity. }
  destruct (shr (shr_record_of_loc (Zpos p) lx) ex k) as [mrs' e'].
  cbn [fst snd] in Hs1. destruct Hs1 as [Hm' He'].
  set (m1 := round_nearest_even (shr_m mrs') (loc_of_shr_record mrs')).
  assert (m1 = a \/ m1 = a + 1) as Hm1.
  { subst m1. rewrite Hm'. apply round_nearest_even_cases. }
  assert (lx = loc_Exact -> k = 0 -> m1 = Zpos p) as Hm1x.
  { intros Hl Hk0. specialize (Hexact Hl Hk0).
    injection Hexact as -> _. reflexivity. }
  assert (2 ^ 52 <= m1 <= 2 ^ 53) as Hm1b by lia.
  destruct m1 as [|p1|p1] eqn:Ep1; try lia.
  cbn [Zdigits2].
  destruct (Z.eq_dec (Zpos p1) (2 ^ 53)) as [Heq|Hneq].
  - (* the successor is 2^53: one more shift, exact *)
    assert (Zpos (digits2_pos p1) = 54) as ->
      by (apply digits2_unique; rewrite Heq; lia).
    rewrite fexp_normal by lia.
    replace (54 + e' - 53 - e') with 1 by lia.
    pose proof (shr_spec (shr_record_of_loc (Zpos p1) loc_Exact) e' 1) as Hs2.
    rewrite shr_record_of_loc_m in Hs2. specialize (Hs2 ltac:(lia)).
    destruct (shr (shr_record_of_loc (Zpos p1) loc_Exact) e' 1)
      as [mrs'' e''].
    cbn [fst snd] in Hs2. destruct Hs2 as [Hm'' He''].
    rewrite Heq in Hm''. change (2 ^ 53 / 2 ^ Z.max 0 1) with (2 ^ 52) in Hm''.
    rewrite Hm''. change (2 ^ 52) with (Zpos (2 ^ 52)%positive).
    cbv iota beta.
    replace (e'' <=? Double.emax - Double.prec) with true
      by (symmetry; apply Z.leb_le; unfold Double.emax, Double.prec; lia).
    exists (2 ^ 52)%positive, e'', (Zpos p1).
    split; [reflexivity|]. split; [reflexivity|].
    split; [lia|]. split; [assumption|]. split; [assumption|].
    replace (e'' - (ex + k)) with 1 by lia. rewrite Heq. reflexivity.
  - assert (Zpos (digits2_pos p1) = 53) as ->
      by (apply digits2_unique; lia).
    rewrite fexp_normal by lia.
    replace (53 + e' - 53 - e') with 0 by lia.
    cbn [shr]. cbn [shr_m]. rewrite shr_record_of_loc_m.
    replace (e' <=? Double.emax - Double.prec) with true
      by (symmetry; apply Z.leb_le; unfold Double.emax, Double.prec; lia).
    exists p1, e', (Zpos p1).
    split; [reflexivity|]. split; [apply digits2_unique; lia|].
    split; [lia|]. split; [assumption|]. split; [assumption|].
    replace (e' - (ex + k)) with 0 by lia. lia.
Qed.

(** *** Values *)

Lemma bpow_pos e : (0 < bpow e)%R.
Proof. apply powerRZ_lt. lra. Qed.

Lemma bpow_add a b : bpow (a + b) = (bpow a * bpow b)%R.
Proof. apply powerRZ_add. lra. Qed.

Lemma bpow_IZR k : 0 <= k -> bpow k = IZR (2 ^ k).
Proof.
  intros Hk. unfold bpow.
  destruct k as [|p|p]; [reflexivity| |lia].
  rewrite <- Zpower_pos_powerRZ. reflexivity.
Qed.

Lemma bpow_opp k : bpow (- k) = (/ bpow k)%R.
Proof.
  pose proof (bpow_add k (- k)) as H. rewrite Z.add_opp_diag_r in H.
  change (bpow 0) with 1%R in H. pose proof (bpow_pos k).
  apply Rmult_eq_reg_l with (bpow k); [|lra].
  rewrite <- H. field. lra.
Qed.

Lemma eps_bpow : eps = bpow (-52).
Proof.
  change (-52) with (- (52)). rewrite bpow_opp, (bpow_IZR 52) by lia.
  reflexivity.
Qed.

(** The same in terms of values: if the exact value [v] lies between
    the significand and its successor, the rounded value is within
    [eps] of it, relatively; an exact significand of 53 bits is kept. *)
Lemma binary_round_aux_bound mx ex lx v :
  0 < mx -> 53 <= Zdigits2 mx -> -1074 <= ex -> ex + Zdigits2 mx <= 1023 ->
  (IZR mx * bpow ex <= v <= (IZR mx + 1) * bpow ex)%R ->
  let k := Zdigits2 mx - 53 in
  exists r,
    normal (binary_round_aux Double.prec Double.emax false mx ex lx) r
      (ex + k) (ex + k + 1)
    /\ ((1 - eps) * v <= r <= (1 + eps) * v)%R
    /\ (lx = loc_Exact -> k = 0 -> r = (IZR mx * bpow ex)%R).
Proof.
  intros Hmx Hd Hex Hmax Hv k.
  destruct (binary_round_aux_spec false mx ex lx Hmx Hd Hex Hmax)
    as (m & e & m1 & Heq & Hdig & He & Hm1 & Hexact & Hval).
  fold k in He, Hm1, Hexact, Hval.
  assert (0 <= k) as Hk by (subst k; lia).
  exists (IZR (Zpos m) * bpow e)%R. split; [|split].
  - exists m, e. auto.
  - set (a := mx / 2 ^ k) in *.
    assert (0 < 2 ^ k) as Hpk by (apply Z.pow_pos_nonneg; lia).
    pose proof (Z.div_mod mx (2 ^ k) ltac:(lia)) as Hdm.
    pose proof (Z.mod_pos_bound mx (2 ^ k) Hpk) as Hmod.
    fold a in Hdm.
    assert (a * 2 ^ k <= mx /\ mx + 1 <= (a + 1) * 2 ^ k) as [Ha1 Ha2] by lia.
    assert (2 ^ 52 <= a) as Ha52.
    { destruct mx as [|p|p]; try lia. cbn [Zdigits2] in *.
      pose proof (digits2_bounds p) as [Dlo _].
      subst a. apply Z.div_le_lower_bound; [lia|].
      replace (Zpos (digits2_pos p) - 1) with (k + 52) in Dlo
        by (subst k; lia).
      rewrite pow2_split in Dlo by lia. lia. }
    (* to the reals *)
    assert (IZR (Zpos m) * bpow e = IZR m1 * bpow (ex + k))%R as Hr.
    { replace e with ((e - (ex + k)) + (ex + k)) at 1 by lia.
      rewrite bpow_add, (bpow_IZR (e - (ex + k))) by lia.
      rewrite <- Rmult_assoc, <- mult_IZR, Hval. reflexivity. }
    rewrite Hr. rewrite (Z.add_comm ex k), bpow_add, (bpow_IZR k) by lia.
    apply IZR_le in Ha1, Ha2, Ha52.
    rewrite mult_IZR in Ha1. rewrite mult_IZR, !plus_IZR in Ha2.
    pose proof (bpow_pos ex) as HB.
    assert (0 < IZR (2 ^ k))%R as HP by (apply IZR_lt; lia).
    set (A := IZR a) in *. set (X := IZR mx) in *.
    set (P := IZR (2 ^ k)) in *. set (B := bpow ex) in *.
    change (IZR (2 ^ 52)) with 4503599627370496%R in Ha52.
    assert (A * (P * B) <= v <= (A + 1) * (P * B))%R as Hsand.
    { split.
      - apply Rle_trans with (X * B)%R; [|lra].
        rewrite <- Rmult_assoc. apply Rmult_le_compat_r; lra.
      - apply Rle_trans with ((X + 1) * B)%R; [lra|].
        rewrite <- Rmult_assoc. apply Rmult_le_compat_r; lra. }
    assert (0 < P * B)%R as HU by (apply Rmult_lt_0_compat; lra).
    set (U := (P * B)%R) in *.
    assert (U <= eps * v)%R as Hu.
    { unfold eps.
      apply Rle_trans with (/ 4503599627370496 * (A * U))%R.
      - rewrite <- Rmult_assoc.
        rewrite <- (Rmult_1_l U) at 1. apply Rmult_le_compat_r; [lra|].
        apply Rmult_le_reg_l with 4503599627370496%R; [lra|].
        rewrite <- Rmult_assoc, Rinv_r by lra. lra.
      - apply Rmult_le_compat_l; [lra|]. lra. }
    assert (IZR m1 = A \/ IZR m1 = A + 1)%R as HM1.
    { destruct Hm1 as [->| ->]; [left; reflexivity|right].
      rewrite plus_IZR. reflexivity. }
    destruct HM1 as [-> | ->]; lra.
  - intros Hl Hk0. rewrite <- (Hexact Hl Hk0).
    replace e with ((e - (ex + k)) + (ex + k)) at 1 by lia.
    rewrite bpow_add, (bpow_IZR (e - (ex + k))) by lia.
    rewrite <- Rmult_assoc, <- mult_IZR, Hval.
    rewrite Hk0, Z.add_0_r. reflexivity.
Qed.

Lemma digits2_ge p k : 2 ^ (k - 1) <= Zpos p -> k <= Zpos (digits2_pos p).
Proof.
  intros H. pose proof (digits2_bounds p) as [_ Dhi].
  destruct (Z_lt_le_dec (Zpos (digits2_pos p)) k) as [Hlt|]; [|assumption].
  exfalso.
  assert (2 ^ Zpos (digits2_pos p) <= 2 ^ (k - 1))
    by (apply Z.pow_le_mono_r; lia).
  lia.
Qed.

Lemma digits2_le p k : 0 <= k -> Zpos p < 2 ^ k -> Zpos (digits2_pos p) <= k.
Proof.
  intros Hk H. pose proof (digits2_bounds p) as [Dlo _].
  destruct (Z_lt_le_dec k (Zpos (digits2_pos p))) as [Hlt|]; [|assumption].
  exfalso.
  assert (2 ^ k <= 2 ^ (Zpos (digits2_pos p) - 1))
    by (apply Z.pow_le_mono_r; lia).
  lia.
Qed.

Lemma iter_xO p q : Zpos (Pos.iter xO p q) = Zpos p * 2 ^ Zpos q.
Proof.
  induction q as [|q IH] using Pos.peano_ind.
  - cbn [Pos.iter]. lia.
  - rewrite Pos.iter_succ, Pos2Z.inj_xO, IH, Pos2Z.inj_succ.
    rewrite Z.pow_succ_r by lia. lia.
Qed.

(** Alignment of a significand on a smaller exponent. *)
Lemma shl_align_le mx ex ex' :
  ex' <= ex ->
  Zpos (fst (shl_align mx ex ex')) = Zpos mx * 2 ^ (ex - ex')
  /\ snd (shl_align mx ex ex') = ex'.
Proof.
  intros H. unfold shl_align.
  destruct (ex' - ex) as [|d|d] eqn:Hd; cbn [fst snd]; try lia.
  - replace (ex - ex') with 0 by lia. lia.
  - rewrite iter_xO. replace (ex - ex') with (Zpos d) by lia. lia.
Qed.

Lemma shl_align_ge mx ex ex' :
  ex <= ex' -> shl_align mx ex ex' = (mx, ex).
Proof.
  intros H. unfold shl_align.
  destruct (ex' - ex) as [|d|d] eqn:Hd; try reflexivity. lia.
Qed.

(** [(double) z] is exact. *)
Lemma of_int_spec z :
  0 < z < 2 ^ 53 -> normal (Double.of_int z) (IZR z) (-52) 1.
Proof.
  intros Hz. destruct z as [|p|p]; try lia.
  unfold Double.of_int, binary_normalize, binary_round.
  pose proof (digits2_bounds p) as [Dlo Dhi].
  set (d := Zpos (digits2_pos p)) in *.
  assert (1 <= d <= 53) as Hd.
  { split; [subst d; lia|]. apply digits2_le; lia. }
  rewrite Z.add_0_r, fexp_normal by lia.
  pose proof (shl_align_le p 0 (d - 53) ltac:(lia)) as [Hm He].
  destruct (shl_align p 0 (d - 53)) as [mz ez]. cbn [fst snd] in Hm, He.
  subst ez. replace (0 - (d - 53)) with (53 - d) in Hm by lia.
  assert (Zpos (digits2_pos mz) = 53) as Hdz.
  { apply digits2_unique. rewrite Hm. change (53 - 1) with 52.
    assert (2 ^ 52 = 2 ^ (d - 1) * 2 ^ (53 - d)) as ->
      by (rewrite <- pow2_split by lia; f_equal; lia).
    assert (2 ^ 53 = 2 ^ d * 2 ^ (53 - d)) as ->
      by (rewrite <- pow2_split by lia; f_equal; lia).
    assert (0 < 2 ^ (53 - d)) by (apply Z.pow_pos_nonneg; lia).
    split.
    - apply Z.mul_le_mono_nonneg_r; lia.
    - apply Z.mul_lt_mono_pos_r; lia. }
  destruct (binary_round_aux_bound (Zpos mz) (d - 53) loc_Exact
              (IZR (Zpos mz) * bpow (d - 53))%R)
    as (r & Hn & _ & Hx); cbn [Zdigits2]; try rewrite Hdz; try lia.
  { pose proof (bpow_pos (d - 53)). nra. }
  cbn [Zdigits2] in Hn, Hx. rewrite Hdz in Hn, Hx.
  specialize (Hx eq_refl ltac:(lia)).
  assert (r = IZR (Zpos p)) as ->.
  { rewrite Hx, Hm, mult_IZR, <- (bpow_IZR (53 - d)) by lia.
    rewrite Rmult_assoc, <- bpow_add.
    replace (53 - d + (d - 53)) with 0 by lia.
    change (bpow 0) with 1%R. lra. }
  destruct Hn as (m & e & Heq & Hdig & He & Hv).
  exists m, e. repeat split; auto; lia.
Qed.

(** Division of two positive normal numbers. *)
Lemma div_spec x y vx vy :
  normal x vx (-52) 1 -> normal y vy (-52) 1 ->
  exists r,
    normal (Double.div x y) r (-106) 2
    /\ ((1 - eps) * (vx / vy) <= r <= (1 + eps) * (vx / vy))%R.
Proof.
  intros (m1 & e1 & -> & Hd1 & He1 & ->) (m2 & e2 & -> & Hd2 & He2 & ->).
  unfold Double.div, SFdiv, SFdiv_core_binary. cbn [Zdigits2 xorb].
  rewrite Hd1, Hd2.
  replace (53 + e1 - (53 + e2)) with (e1 - e2) by lia.
  rewrite fexp_normal by lia.
  rewrite Z.min_l by lia.
  replace (e1 - e2 - (e1 - e2 - 53)) with 53 by lia.
  rewrite Z.shiftl_mul_pow2 by lia.
  pose proof (digits2_bounds m1) as [D1lo D1hi].
  pose proof (digits2_bounds m2) as [D2lo D2hi].
  rewrite Hd1 in D1lo, D1hi. rewrite Hd2 in D2lo, D2hi.
  change (53 - 1) with 52 in *.
  set (num := Zpos m1 * 2 ^ 53).
  pose proof (Z.div_mod num (Zpos m2) ltac:(lia)) as Hdm.
  pose proof (Z.mod_pos_bound num (Zpos m2) ltac:(lia)) as Hmod.
  unfold Z.div, Z.modulo in Hdm, Hmod.
  destruct (Z.div_eucl num (Zpos m2)) as [q rem].
  assert (2 ^ 52 <= q < 2 ^ 54) as Hq.
  { subst num. change (2 ^ 52) with 4503599627370496 in *.
    change (2 ^ 53) with 9007199254740992 in *.
    change (2 ^ 54) with 18014398509481984. nia. }
  destruct q as [|pq|pq]; try lia.
  assert (53 <= Zpos (digits2_pos pq) <= 54) as Hdq.
  { split; [apply digits2_ge; change (53 - 1) with 52; lia|].
    apply digits2_le; lia. }
  destruct (binary_round_aux_bound (Zpos pq) (e1 - e2 - 53)
              (new_location (Zpos m2) rem)
              (IZR (Zpos m1) * bpow e1 / (IZR (Zpos m2) * bpow e2))%R)
    as (r & Hn & Hr & _); cbn [Zdigits2]; try lia.
  { (* the quotient lies between the two candidates *)
    pose proof (bpow_pos e1) as B1. pose proof (bpow_pos e2) as B2.
    assert (0 < IZR (Zpos m2))%R as M2 by (apply IZR_lt; lia).
    assert (bpow e1 = bpow (e1 - e2 - 53) * IZR (2 ^ 53) * bpow e2)%R as ->.
    { rewrite <- (bpow_IZR 53), <- !bpow_add by lia. f_equal. lia. }
    pose proof (bpow_pos (e1 - e2 - 53)) as B.
    set (b := bpow (e1 - e2 - 53)) in *.
    assert (IZR (Zpos pq) * IZR (Zpos m2) <= IZR (Zpos m1) * IZR (2 ^ 53))%R
      as Hlo.
    { rewrite <- !mult_IZR. apply IZR_le. subst num. lia. }
    assert (IZR (Zpos m1) * IZR (2 ^ 53)
            <= (IZR (Zpos pq) + 1) * IZR (Zpos m2))%R as Hhi.
    { rewrite <- (plus_IZR _ 1), <- !mult_IZR. apply IZR_le. subst num. lia. }
    replace (IZR (Zpos m1) * (b * IZR (2 ^ 53) * bpow e2)
             / (IZR (Zpos m2) * bpow e2))%R
      with (IZR (Zpos m1) * IZR (2 ^ 53) / IZR (Zpos m2) * b)%R
      by (field; lra).
    split.
    - apply Rmult_le_compat_r; [lra|].
      apply Rmult_le_reg_r with (IZR (Zpos m2)); [lra|].
      replace (IZR (Zpos m1) * IZR (2 ^ 53) / IZR (Zpos m2) * IZR (Zpos m2))%R
        with (IZR (Zpos m1) * IZR (2 ^ 53))%R by (field; lra).
      lra.
    - apply Rmult_le_compat_r; [lra|].
      apply Rmult_le_reg_r with (IZR (Zpos m2)); [lra|].
      replace (IZR (Zpos m1) * IZR (2 ^ 53) / IZR (Zpos m2) * IZR (Zpos m2))%R
        with (IZR (Zpos m1) * IZR (2 ^ 53))%R by (field; lra).
      lra. }
  exists r. split; [|exact Hr].
  cbn [Zdigits2] in Hn. destruct Hn as (m & e & Heq & Hdig & He & Hv).
  exists m, e. repeat split; auto; lia.
Qed.

(** Multiplication of two positive normal numbers. *)
Lemma mul_spec x y vx vy :
  normal x vx (-300) 300 -> normal y vy (-300) 300 ->
  exists r,
    normal (Double.mul x y) r (-600) 700
    /\ ((1 - eps) * (vx * vy) <= r <= (1 + eps) * (vx * vy))%R.
Proof.
  intros (m1 & e1 & -> & Hd1 & He1 & ->) (m2 & e2 & -> & Hd2 & He2 & ->).
  unfold Double.mul, SFmul. cbn [xorb].
  pose proof (digits2_bounds m1) as [D1lo D1hi].
  pose proof (digits2_bounds m2) as [D2lo D2hi].
  rewrite Hd1 in D1lo, D1hi. rewrite Hd2 in D2lo, D2hi.
  change (53 - 1) with 52 in *.
  assert (2 ^ 104 <= Zpos (m1 * m2) < 2 ^ 106) as Hp.
  { rewrite Pos2Z.inj_mul.
    change (2 ^ 52) with 4503599627370496 in *.
    change (2 ^ 53) with 9007199254740992 in *.
    change (2 ^ 104) with (4503599627370496 * 4503599627370496).
    change (2 ^ 106) with (9007199254740992 * 9007199254740992). nia. }
  assert (105 <= Zpos (digits2_pos (m1 * m2)) <= 106) as Hdp.
  { split; [apply digits2_ge; change (105 - 1) with 104; lia|].
    apply digits2_le; lia. }
  destruct (binary_round_aux_bound (Zpos (m1 * m2)) (e1 + e2) loc_Exact
              (IZR (Zpos m1) * bpow e1 * (IZR (Zpos m2) * bpow e2))%R)
    as (r & Hn & Hr & _); cbn [Zdigits2]; try lia.
  { rewrite Pos2Z.inj_mul, mult_IZR, bpow_add.
    pose proof (bpow_pos e1). pose proof (bpow_pos e2).
    assert (0 < bpow e1 * bpow e2)%R by (apply Rmult_lt_0_compat; lra).
    split; [apply Req_le; ring|].
    replace (IZR (Zpos m1) * bpow e1 * (IZR (Zpos m2) * bpow e2))%R
      with (IZR (Zpos m1) * IZR (Zpos m2) * (bpow e1 * bpow e2))%R by ring.
    apply Rmult_le_compat_r; lra. }
  exists r. split; [|exact Hr].
  cbn [Zdigits2] in Hn. destruct Hn as (m & e & Heq & Hdig & He & Hv).
  exists m, e. repeat split; auto; lia.
Qed.

(** Addition of two positive normal numbers. *)
Lemma add_spec x y vx vy :
  normal x vx (-300) 300 -> normal y vy (-600) 700 ->
  exists r,
    normal (Double.add x y) r (-600) 800
    /\ ((1 - eps) * (vx + vy) <= r <= (1 + eps) * (vx + vy))%R.
Proof.
  intros (m1 & e1 & -> & Hd1 & He1 & ->) (m2 & e2 & -> & Hd2 & He2 & ->).
  unfold Double.add, SFadd. cbn [cond_Zopp].
  set (ez := Z.min e1 e2).
  pose proof (shl_align_le m1 e1 ez ltac:(subst ez; lia)) as [Ha1 _].
  pose proof (shl_align_le m2 e2 ez ltac:(subst ez; lia)) as [Ha2 _].
  set (a1 := fst (shl_align m1 e1 ez)) in *.
  set (a2 := fst (shl_align m2 e2 ez)) in *.
  pose proof (digits2_bounds m1) as [D1lo D1hi].
  pose proof (digits2_bounds m2) as [D2lo D2hi].
  rewrite Hd1 in D1lo, D1hi. rewrite Hd2 in D2lo, D2hi.
  change (53 - 1) with 52 in *.
  assert (0 < 2 ^ (e1 - ez)) as P1 by (apply Z.pow_pos_nonneg; subst ez; lia).
  assert (0 < 2 ^ (e2 - ez)) as P2 by (apply Z.pow_pos_nonneg; subst ez; lia).
  change (Zpos a1 + Zpos a2) with (Zpos (a1 + a2)).
  unfold binary_normalize, binary_round.
  (* the sum has at least 53 bits, and not too many *)
  set (emx := Z.max e1 e2).
  assert (2 ^ 52 <= Zpos (a1 + a2) < 2 ^ (55 + emx - ez)) as Hs.
  { rewrite Pos2Z.inj_add, Ha1, Ha2. split; [nia|].
    assert (2 ^ (e1 - ez) <= 2 ^ (emx - ez)) as Q1
      by (apply Z.pow_le_mono_r; subst ez emx; lia).
    assert (2 ^ (e2 - ez) <= 2 ^ (emx - ez)) as Q2
      by (apply Z.pow_le_mono_r; subst ez emx; lia).
    replace (55 + emx - ez) with (2 + 53 + (emx - ez)) by lia.
    rewrite !pow2_split by (subst ez emx; lia).
    change (2 ^ 2) with 4. nia. }
  assert (53 <= Zpos (digits2_pos (a1 + a2)) <= 55 + emx - ez) as Hds.
  { split; [apply digits2_ge; change (53 - 1) with 52; lia|].
    apply digits2_le; [subst ez emx|]; lia. }
  rewrite fexp_normal by (subst ez; lia).
  rewrite shl_align_ge by lia.
  destruct (binary_round_aux_bound (Zpos (a1 + a2)) ez loc_Exact
              (IZR (Zpos m1) * bpow e1 + IZR (Zpos m2) * bpow e2)%R)
    as (r & Hn & Hr & _); cbn [Zdigits2]; try (subst ez emx; lia).
  { assert (IZR (Zpos (a1 + a2)) * bpow ez
            = IZR (Zpos m1) * bpow e1 + IZR (Zpos m2) * bpow e2)%R as <-.
    { rewrite Pos2Z.inj_add, plus_IZR, Ha1, Ha2, !mult_IZR.
      rewrite <- (bpow_IZR (e1 - ez)), <- (bpow_IZR (e2 - ez))
        by (subst ez; lia).
      rewrite Rmult_plus_distr_r, !Rmult_assoc, <- !bpow_add.
      replace (e1 - ez + ez) with e1 by lia.
      replace (e2 - ez + ez) with e2 by lia. reflexivity. }
    pose proof (bpow_pos ez). split; [lra|].
    apply Rmult_le_compat_r; lra. }
  exists r. split; [|exact Hr].
  cbn [Zdigits2] in Hn. destruct Hn as (m & e & Heq & Hdig & He & Hv).
  exists m, e. repeat split; auto; subst ez emx; lia.
Qed.

(** Truncation of a positive normal number below [2^31]. *)
Lemma to_int_spec x v elo ehi :
  normal x v elo ehi -> (v < 2147483648)%R ->
  0 <= Double.to_int x
  /\ (IZR (Double.to_int x) <= v < IZR (Double.to_int x) + 1)%R.
Proof.
  intros (m & e & -> & _ & _ & ->) Hv. unfold Double.to_int.
  set (a := Z.shiftl (Zpos m) e).
  assert (0 <= a /\ (IZR a <= IZR (Zpos m) * bpow e < IZR a + 1)%R)
    as [Ha0 Har].
  { subst a. destruct (Z_le_gt_dec 0 e) as [He|He].
    - rewrite Z.shiftl_mul_pow2 by lia.
      pose proof (Z.pow_pos_nonneg 2 e ltac:(lia) He).
      split; [lia|]. rewrite mult_IZR, <- bpow_IZR by lia. lra.
    - rewrite Z.shiftl_div_pow2 by lia.
      pose proof (Z.pow_pos_nonneg 2 (- e) ltac:(lia) ltac:(lia)) as Hp.
      pose proof (Z.div_mod (Zpos m) (2 ^ (- e)) ltac:(lia)) as Hdm.
      pose proof (Z.mod_pos_bound (Zpos m) (2 ^ (- e)) Hp) as Hmod.
      set (q := Zpos m / 2 ^ (- e)) in *.
      assert (0 <= q) by (subst q; apply Z.div_pos; lia).
      split; [assumption|].
      assert (q * 2 ^ (- e) <= Zpos m /\ Zpos m + 1 <= (q + 1) * 2 ^ (- e))
        as [H1 H2] by lia.
      apply IZR_le in H1, H2.
      rewrite mult_IZR in H1. rewrite mult_IZR, !plus_IZR in H2.
      rewrite <- (bpow_IZR (- e)) in H1, H2 by lia.
      pose proof (bpow_pos e) as Be.
      assert (bpow (- e) * bpow e = 1)%R as Hinv.
      { rewrite <- bpow_add. replace (- e + e) with 0 by lia. reflexivity. }
      set (P := bpow (- e)) in *. set (B := bpow e) in *.
      pose proof (bpow_pos (- e)) as HP. fold P in HP.
      split.
      + replace (IZR q) with (IZR q * P * B)%R by (rewrite Rmult_assoc, Hinv; ring).
        apply Rmult_le_compat_r; lra.
      + apply Rlt_le_trans with ((IZR (Zpos m) + 1) * B)%R; [nra|].
        replace (IZR q + 1)%R with ((IZR q + 1) * P * B)%R
          by (rewrite Rmult_assoc, Hinv; ring).
        apply Rmult_le_compat_r; lra. }
  assert (a < 2147483648) as Hlt.
  { apply lt_IZR. lra. }
  unfold Int.in_rangeb, Int.min_signed, Int.max_signed.
  destruct (Z.leb_spec (- 2 ^ 31) a); [|lia].
  destruct (Z.leb_spec a (2 ^ 31 - 1)); [|lia].
  cbn [andb]. split; assumption.
Qed.

Lemma normal_widen x v elo ehi elo' ehi' :
  elo' <= elo -> ehi <= ehi' -> normal x v elo ehi -> normal x v elo' ehi'.
Proof.
  intros Hl Hh (m & e & Heq & Hd & He & Hv).
  exists m, e. repeat split; auto; lia.
Qed.

Lemma normal_pos x v elo ehi : normal x v elo ehi -> (0 < v)%R.
Proof.
  intros (m & e & _ & _ & _ & ->).
  apply Rmult_lt_0_compat; [apply IZR_lt; lia|apply bpow_pos].
Qed.

(** Three roundings in a row move a number below [2^31] by less than a
    thousandth. *)
Lemma three_roundings (L V q p r X : R) :
  (0 <= L)%R -> (0 <= V)%R -> (0 < X)%R -> (L + V <= 2147483647)%R ->
  ((1 - eps) * (V / X) <= q <= (1 + eps) * (V / X))%R ->
  ((1 - eps) * (q * X) <= p <= (1 + eps) * (q * X))%R ->
  ((1 - eps) * (L + p) <= r <= (1 + eps) * (L + p))%R ->
  (L + V - / 1000 < r < L + V + / 1000)%R.
Proof.
  intros HL HV HX HW Hq Hp Hr.
  assert (V / X * X = V)%R as HVX by (field; lra).
  assert (0 < eps < / 1000000000000000)%R as He by (unfold eps; lra).
  set (e := eps) in *.
  assert ((1 - e) * V <= q * X <= (1 + e) * V)%R as Hqx.
  { split.
    - replace ((1 - e) * V)%R with ((1 - e) * (V / X) * X)%R
        by (rewrite Rmult_assoc, HVX; reflexivity).
      apply Rmult_le_compat_r; lra.
    - replace ((1 + e) * V)%R with ((1 + e) * (V / X) * X)%R
        by (rewrite Rmult_assoc, HVX; reflexivity).
      apply Rmult_le_compat_r; lra. }
  assert ((1 - e) * ((1 - e) * V) <= p <= (1 + e) * ((1 + e) * V))%R as Hp2.
  { split.
    - apply Rle_trans with ((1 - e) * (q * X))%R; [|lra].
      apply Rmult_le_compat_l; lra.
    - apply Rle_trans with ((1 + e) * (q * X))%R; [lra|].
      apply Rmult_le_compat_l; lra. }
  assert (0 <= e * V)%R as HeV by (apply Rmult_le_pos; lra).
  assert (0 <= e * (e * V))%R as HeeV by (apply Rmult_le_pos; lra).
  assert (e * (e * V) <= e * V)%R as Hee.
  { rewrite <- (Rmult_1_l (e * V)) at 2. apply Rmult_le_compat_r; lra. }
  assert (V - 2 * (e * V) <= p <= V + 3 * (e * V))%R as Hp3.
  { split.
    - apply Rle_trans with ((1 - e) * ((1 - e) * V))%R; [|lra].
      ring_simplify. nra.
    - apply Rle_trans with ((1 + e) * ((1 + e) * V))%R; [lra|].
      ring_simplify. nra. }
  assert (e * V <= e * 2147483647)%R as HeV2
    by (apply Rmult_le_compat_l; lra).
  assert (0 <= e * L <= e * 2147483647)%R as HeL.
  { split; [apply Rmult_le_pos; lra|apply Rmult_le_compat_l; lra]. }
  assert (e * V <= / 4 * V)%R as HeV4
    by (apply Rmult_le_compat_r; lra).
  assert (0 <= L + p <= 2147483648)%R as HLp by lra.
  assert (0 <= e * (L + p) <= e * 2147483648)%R as HeLp.
  { split; [apply Rmult_le_pos; lra|apply Rmult_le_compat_l; lra]. }
  lra.
Qed.

(** The estimate of line 39 is within one position of the exact
    interpolation formula, whenever the difference of the elements at the
    bounds is an [int]. *)
Lemma estimate_near low high a_low a_high target :
  0 <= low -> low < high -> high <= Int.max_signed ->
  a_low <= target <= a_high -> a_low < a_high ->
  a_high - a_low <= Int.max_signed ->
  let exact := exact_position low high a_low a_high target in
  exact - 1 <= estimate low high a_high a_low a_low target <= exact + 1.
Proof.
  unfold Int.max_signed. intros Hlow Hlt Hhigh Ht Hne Hd.
  unfold exact_position, estimate, Int.sub.
  rewrite !wrap_id
    by (unfold Int.in_range, Int.min_signed, Int.max_signed; lia).
  set (n := high - low). set (d := a_high - a_low).
  set (x := target - a_low).
  assert (0 < n <= 2147483647) as Hn by (subst n; lia).
  assert (0 < d <= 2147483647) as Hd' by (subst d; lia).
  assert (0 <= x <= d) as Hx by (subst x d; lia).
  pose proof (of_int_spec n ltac:(lia)) as HN.
  pose proof (of_int_spec d ltac:(lia)) as HD.
  destruct (div_spec _ _ _ _ HN HD) as (q & HQ & Hq).
  destruct (Z.eq_dec x 0) as [Hx0|Hx0].
  - (* the target is the element at [low]: the offset is an exact zero *)
    rewrite Hx0, Z.mul_0_r, Z.div_0_l, Z.add_0_r by lia.
    change (Double.of_int 0) with (S754_zero false).
    destruct HQ as (mq & eq & -> & _).
    unfold Double.mul, SFmul. cbn [xorb].
    destruct (Z.eq_dec low 0) as [->|Hl0].
    + cbn. lia.
    + pose proof (of_int_spec low ltac:(lia)) as HL.
      pose proof HL as (ml & el & Heq & _). rewrite Heq.
      unfold Double.add, SFadd. rewrite <- Heq.
      destruct (to_int_spec _ _ _ _ HL) as [_ [T1 T2]].
      { apply IZR_lt. lia. }
      assert (Double.to_int (Double.of_int low) = low) as ->; [|lia].
      rewrite <- (plus_IZR _ 1) in T2.
      apply le_IZR in T1. apply lt_IZR in T2. lia.
  - pose proof (of_int_spec x ltac:(lia)) as HX.
    destruct (mul_spec _ _ _ _
                (normal_widen _ _ (-106) 2 (-300) 300 ltac:(lia) ltac:(lia) HQ)
                (normal_widen _ _ (-52) 1 (-300) 300 ltac:(lia) ltac:(lia) HX))
      as (p & HP & Hp).
    set (P := Double.mul _ _) in *.
    (* the sum, whether [low] is zero or not *)
    assert (exists r,
              normal (Double.add (Double.of_int low) P) r (-600) 800
              /\ ((1 - eps) * (IZR low + p) <= r <= (1 + eps) * (IZR low + p))%R)
      as (r & HR & Hr).
    { destruct (Z.eq_dec low 0) as [->|Hl0].
      - change (Double.of_int 0) with (S754_zero false).
        pose proof HP as (mp & ep & Heq & _). rewrite Heq.
        unfold Double.add, SFadd. rewrite <- Heq.
        exists p. split; [eapply normal_widen; [| |exact HP]; lia|].
        pose proof (normal_pos _ _ _ _ HP).
        assert (0 < eps < 1)%R by (unfold eps; lra).
        rewrite Rplus_0_l. nra.
      - pose proof (of_int_spec low ltac:(lia)) as HL.
        apply (add_spec _ _ _ _
                 (normal_widen _ _ (-52) 1 (-300) 300 ltac:(lia) ltac:(lia) HL)
                 HP). }
    (* the exact quotient *)
    pose proof (Z.div_mod (n * x) d ltac:(lia)) as Hdm.
    pose proof (Z.mod_pos_bound (n * x) d ltac:(lia)) as Hmod.
    set (F := n * x / d) in *.
    assert (d * F <= n * x /\ n * x + 1 <= d * (F + 1)) as [F1 F2] by lia.
    apply IZR_le in F1, F2.
    rewrite !mult_IZR in F1. rewrite !plus_IZR, !mult_IZR, plus_IZR in F2.
    assert (0 < IZR d)%R as Rd by (apply IZR_lt; lia).
    assert (0 < IZR x)%R as Rx by (apply IZR_lt; lia).
    assert (0 < IZR n)%R as Rn by (apply IZR_lt; lia).
    assert (IZR x <= IZR d)%R as Rxd by (apply IZR_le; lia).
    assert (0 <= IZR low)%R as Rl by (apply IZR_le; lia).
    set (V := (IZR n * IZR x / IZR d)%R).
    assert (V * IZR d = IZR n * IZR x)%R as HV by (subst V; field; lra).
    assert (IZR F <= V < IZR F + 1)%R as HF.
    { split.
      - apply Rmult_le_reg_r with (IZR d); [lra|]. lra.
      - apply Rmult_lt_reg_r with (IZR d); [lra|]. lra. }
    assert (V <= IZR n)%R as HVn.
    { apply Rmult_le_reg_r with (IZR d); [lra|]. rewrite HV.
      apply Rmult_le_compat_l; lra. }
    assert (0 <= V)%R as HV0.
    { subst V. apply Rmult_le_pos; [apply Rmult_le_pos; lra|].
      apply Rlt_le, Rinv_0_lt_compat. lra. }
    assert (IZR low + IZR n <= 2147483647)%R as HW.
    { rewrite <- plus_IZR. apply IZR_le. subst n. lia. }
    assert (IZR n / IZR d = V / IZR x)%R as HVx by (subst V; field; lra).
    rewrite HVx in Hq.
    pose proof (three_roundings (IZR low) V q p r (IZR x)
                  Rl HV0 Rx ltac:(lra) Hq Hp Hr) as Hnear.
    destruct (to_int_spec _ _ _ _ HR ltac:(lra)) as [_ [T1 T2]].
    set (t := Double.to_int _) in *.
    split.
    + assert (low + F - 2 < t); [|lia].
      apply lt_IZR. rewrite minus_IZR, plus_IZR. lra.
    + assert (t < low + F + 2); [|lia].
      apply lt_IZR. rewrite !plus_IZR. lra.
Qed.

(** ** The generator *)

Lemma store_app done r rest x :
  store (done ++ r :: rest) (Z.of_nat (length done)) x = done ++ x :: rest.
Proof.
  unfold store.
  destruct (Z.ltb_spec (Z.of_nat (length done)) 0) as [Hneg|_]; [lia|].
  rewrite Nat2Z.id.
  induction done as [|d done IH]; cbn; [reflexivity|].
  rewrite IH. reflexivity.
Qed.

(** The filling loop overwrites the rest of the vector with numbers of
    [[1, b]] and leaves what it already wrote. *)
Lemma fill_spec (engine : Type) (draw : Z -> Z -> engine -> option (Z * engine))
  (b : Z) :
  draw_contract draw -> 1 <= b ->
  forall rest done gen,
  Z.of_nat (length done + length rest) <= Int.max_signed ->
  exists fresh,
    fill draw (length rest) (Z.of_nat (length done)) b (done ++ rest) gen
      = Some (done ++ fresh)
    /\ length fresh = length rest
    /\ Forall (fun x => 1 <= x <= b) fresh.
Proof.
  intros Hdraw Hb. induction rest as [|r rest IH]; intros done gen Hsize.
  - exists []. cbn. auto.
  - cbn [length fill] in *.
    destruct (Hdraw 1 b gen Hb) as (x & gen' & -> & Hx).
    rewrite store_app. unfold Int.add.
    rewrite wrap_id
      by (unfold Int.in_range, Int.min_signed, Int.max_signed in *; lia).
    replace (Z.of_nat (length done) + 1)
      with (Z.of_nat (length (done ++ [x])))
      by (rewrite length_app; cbn; lia).
    replace (done ++ x :: rest) with ((done ++ [x]) ++ rest)
      by (rewrite <- app_assoc; reflexivity).
    destruct (IH (done ++ [x]) gen') as (fresh & -> & Hlen & Hall).
    { rewrite length_app. cbn [length]. lia. }
    exists (x :: fresh). rewrite <- app_assoc. cbn.
    repeat split; auto.
Qed.

Lemma store_length arr i x : length (store arr i x) = length arr.
Proof.
  unfold store. destruct (i <? 0); [reflexivity|].
  generalize (Z.to_nat i) as n. induction arr as [|a arr IH]; intros n.
  - reflexivity.
  - destruct n as [|n]; cbn; [reflexivity|]. rewrite IH. reflexivity.
Qed.

(** Whatever the distribution draws, the loop keeps the length. *)
Lemma fill_length (engine : Type)
  (draw : Z -> Z -> engine -> option (Z * engine)) n :
  forall i b arr gen arr',
    fill draw n i b arr gen = Some arr' -> length arr' = length arr.
Proof.
  induction n as [|n IH]; intros i b arr gen arr' H; cbn [fill] in H.
  - injection H as <-. reflexivity.
  - destruct (draw 1 b gen) as [[x gen']|]; [|discriminate].
    rewrite (IH _ _ _ _ _ H). apply store_length.
Qed.

Lemma sort_permutation arr : Permutation arr (sort arr).
Proof. apply IntSort.Permuted_sort. Qed.

Lemma sort_non_decreasing arr : non_decreasing (sort arr).
Proof.
  unfold sort. pose proof (IntSort.Sorted_sort arr) as Hs.
  set (l := IntSort.sort arr) in *. clearbody l.
  assert (forall n, (S n < length l)%nat -> nth n l 0 <= nth (S n) l 0) as H.
  { induction Hs as [|a l Hs IH Hhd]; intros n Hn; [cbn in Hn; lia|].
    destruct n as [|n].
    - destruct Hhd as [|b l Hab]; [cbn in Hn; lia|].
      cbn. apply Z.leb_le. exact Hab.
    - cbn [nth]. apply IH. cbn in Hn. lia. }
  intros i Hi Hn. unfold at_index.
  replace (Z.to_nat (i + 1)) with (S (Z.to_nat i)) by lia.
  apply H. lia.
Qed.

(** A vector returned has [size] elements, whatever was drawn. *)
Lemma generateSortedArray_length (engine : Type)
  (draw : Z -> Z -> engine -> option (Z * engine)) size gen arr :
  generateSortedArray draw size gen = Some arr ->
  length arr = Z.to_nat size.
Proof.
  unfold generateSortedArray. destruct (size <? 0); [discriminate|].
  cbv zeta. destruct (1 <=? Int.mul size 10); [|discriminate].
  destruct (fill draw _ _ _ _ gen) as [fresh|] eqn:Hfill; [|discriminate].
  intros H. injection H as <-.
  apply fill_length in Hfill. rewrite repeat_length in Hfill.
  rewrite <- (Permutation_length (sort_permutation fresh)). exact Hfill.
Qed.

(** A bound below 1: the distribution cannot be constructed. *)
Lemma generateSortedArray_undefined (engine : Type)
  (draw : Z -> Z -> engine -> option (Z * engine)) size gen :
  Int.mul size 10 < 1 -> generateSortedArray draw size gen = None.
Proof.
  intros Hb. unfold generateSortedArray.
  destruct (size <? 0); [reflexivity|]. cbv zeta.
  destruct (Z.leb_spec 1 (Int.mul size 10)); [lia|reflexivity].
Qed.

(** A bound of at least 1: the sorted list of the draws. *)
Lemma generateSortedArray_defined (engine : Type)
  (draw : Z -> Z -> engine -> option (Z * engine)) size gen :
  0 <= size -> 1 <= Int.mul size 10 ->
  generateSortedArray draw size gen
  = match fill draw (Z.to_nat size) 0 (Int.mul size 10)
            (repeat 0 (Z.to_nat size)) gen with
    | None => None
    | Some arr' => Some (sort arr')
    end.
Proof.
  intros Hsize Hb. unfold generateSortedArray.
  destruct (Z.ltb_spec size 0) as [Hneg|_]; [lia|]. cbv zeta.
  destruct (Z.leb_spec 1 (Int.mul size 10)); [reflexivity|lia].
Qed.

Lemma lcg_draw_contract : draw_contract lcg_draw.
Proof.
  intros a b gen Hab. unfold lcg_draw.
  destruct (Z.leb_spec a b); [|lia].
  do 2 eexists. split; [reflexivity|].
  pose proof (Z.mod_pos_bound gen (b - a + 1) ltac:(lia)). lia.
Qed.

(** * The claims about [interpolationSearch] *)

(** C1 (soundness of the result).  Whenever [interpolationSearch] returns
    a value [i] other than the not-found sentinel, [i] is a valid 0-based
    index of the vector and the element at [i] is the target.  The proof
    needs no order on the vector, so the statement covers every sorted
    non-decreasing sequence. *)
Theorem search_sound (arr : vec) (target i : Z) :
  outcome_of (interpolationSearch arr target) = Value i ->
  i <> not_found ->
  valid_index arr i /\ at_index arr i = target.
Proof.
  intros Hout Hi.
  destruct (interpolationSearch_spec arr target)
    as (tr & r & _ & Heq & _ & Hpost).
  rewrite Heq in Hout. cbn in Hout. injection Hout as ->.
  pose proof (of_size_upper (length arr)) as Hup.
  destruct Hpost as [[Hin Hat]|[-> _]].
  - unfold valid_index. split; [lia|assumption].
  - contradiction.
Qed.

(** The demonstration array: the search for 40 returns 3. *)
Lemma search_sound_witness :
  valid_index [10; 20; 30; 40; 50] 3
  /\ at_index [10; 20; 30; 40; 50] 3 = 40.
Proof.
  apply (search_sound [10; 20; 30; 40; 50] 40 3).
  - vm_compute. reflexivity.
  - unfold not_found. lia.
Defined.

(** C2, as stated, at a vector the narrowing of [size() - 1] to [int]
    defeats: in a sorted vector of [2^31 + 1] zeros the value 0 occurs,
    and the search for it returns the sentinel. *)
Lemma search_complete_counterexample :
  let arr := repeat 0 (Z.to_nat (2 ^ 31 + 1)) in
  non_decreasing arr /\ In 0 arr
  /\ outcome_of (interpolationSearch arr 0) = Value not_found.
Proof.
  intros arr. subst arr. split; [apply non_decreasing_repeat|]. split.
  - apply In_at_index. exists 0. unfold valid_index.
    rewrite repeat_length, Z2Nat.id by lia.
    split; [lia|]. apply at_index_repeat. rewrite Z2Nat.id; lia.
  - rewrite interpolationSearch_too_long; [reflexivity|].
    rewrite repeat_length, Z2Nat.id; lia.
Qed.

(** C2 (completeness for present targets), amended: for every sorted
    non-decreasing vector of at most [2^31] elements and every value [v]
    that occurs in it, [interpolationSearch] returns an index [i], not the
    sentinel, with [arr[i] = v]. *)
Theorem search_complete (arr : vec) (v : Z) :
  non_decreasing arr ->
  Z.of_nat (length arr) <= 2 ^ 31 ->
  In v arr ->
  exists i,
    outcome_of (interpolationSearch arr v) = Value i
    /\ i <> not_found /\ valid_index arr i /\ at_index arr i = v.
Proof.
  intros Hsort Hlen Hin.
  destruct (interpolationSearch_spec arr v)
    as (tr & r & _ & Heq & _ & Hpost).
  rewrite (of_size_exact _ Hlen) in Hpost.
  exists r. rewrite Heq. split; [reflexivity|].
  destruct Hpost as [[Hr Hat]|[-> Habs]].
  - unfold not_found, valid_index. repeat split; auto; lia.
  - exfalso. apply In_at_index in Hin. destruct Hin as (k & Hk & Hv).
    apply (Habs Hsort k); [unfold valid_index in Hk; lia|assumption].
Qed.

(** A vector with a repeated element, searched for 7. *)
Lemma search_complete_witness :
  exists i,
    outcome_of (interpolationSearch [1; 3; 3; 7; 20] 7) = Value i
    /\ i <> not_found /\ valid_index [1; 3; 3; 7; 20] i
    /\ at_index [1; 3; 3; 7; 20] i = 7.
Proof.
  apply (search_complete [1; 3; 3; 7; 20] 7).
  - intros i Hi Hn. cbn in Hn.
    assert (i = 0 \/ i = 1 \/ i = 2 \/ i = 3) as Hc by lia.
    destruct Hc as [-> | [-> | [-> | ->]]]; vm_compute; discriminate.
  - cbn. lia.
  - cbn. auto.
Defined.

(** C3 (not-found without false positives).  For a sorted non-decreasing
    vector and a value [v] that occurs nowhere in it, the search returns
    the sentinel -1; and when the vector is not empty and [v] lies outside
    [[arr[0], arr[n-1]]], the search returns without probing: its trace
    holds no probe, only the reads of [arr[low]] and [arr[high]] that the
    loop condition makes at the initial bounds. *)
Theorem search_absent (arr : vec) (v : Z) :
  non_decreasing arr ->
  ~ In v arr ->
  outcome_of (interpolationSearch arr v) = Value (-1)
  /\ (arr <> [] ->
      v < at_index arr 0 \/ at_index arr (Z.of_nat (length arr) - 1) < v ->
      Forall (bound_load 0 (Int.of_size_minus_one (length arr)))
        (trace_of (interpolationSearch arr v))
      /\ forall pos, ~ In (Probe pos) (trace_of (interpolationSearch arr v))).
Proof.
  intros Hsort Hnotin.
  pose proof (of_size_upper (length arr)) as Hup.
  pose proof (of_size_in_range (length arr)) as Hir.
  split.
  - destruct (interpolationSearch_spec arr v)
      as (tr & r & _ & Heq & _ & Hpost).
    rewrite Heq. cbn. f_equal.
    destruct Hpost as [[Hr Hat]|[-> _]]; [|reflexivity].
    exfalso. apply Hnotin. apply In_at_index. exists r.
    unfold valid_index. split; [lia|assumption].
  - intros Hne Hout.
    set (high := Int.of_size_minus_one (length arr)) in *.
    destruct (iteration_spec arr v 0 high) as (tr & s & Hit & _ & Hs & Hld);
      try (unfold Int.in_range, Int.min_signed, Int.max_signed in *; lia).
    assert (s = Exit) as ->.
    { destruct s as [|r|l h]; [reflexivity| |]; exfalso;
        cbn in Hs; destruct Hs as (Hle & Hrange & _);
        (destruct Hout as [Hlow|Hhigh]; [lia|]);
        pose proof (non_decreasing_pairs arr Hsort high
                      (Z.of_nat (length arr) - 1)); lia. }
    assert (interpolationSearch arr v = (tr, Value (-1))) as Heq.
    { unfold interpolationSearch. cbn [search_loop]. fold high.
      rewrite Hit. cbn [bind ret]. rewrite app_nil_r. reflexivity. }
    rewrite Heq. cbn [trace_of fst]. specialize (Hld eq_refl).
    split; [assumption|].
    intros pos Hin.
    rewrite Forall_forall in Hld. specialize (Hld _ Hin).
    destruct Hld; discriminate.
Qed.

(** The demonstration array, searched for 60, above its last element. *)
Lemma search_absent_witness :
  outcome_of (interpolationSearch [10; 20; 30; 40; 50] 60) = Value (-1)
  /\ Forall (bound_load 0 (Int.of_size_minus_one 5))
       (trace_of (interpolationSearch [10; 20; 30; 40; 50] 60))
  /\ forall pos,
       ~ In (Probe pos) (trace_of (interpolationSearch [10; 20; 30; 40; 50] 60)).
Proof.
  assert (non_decreasing [10; 20; 30; 40; 50]) as Hs.
  { intros i Hi Hn. cbn in Hn.
    assert (i = 0 \/ i = 1 \/ i = 2 \/ i = 3) as Hc by lia.
    destruct Hc as [-> | [-> | [-> | ->]]]; vm_compute; discriminate. }
  assert (~ In 60 [10; 20; 30; 40; 50]) as Hn.
  { cbn. lia. }
  destruct (search_absent [10; 20; 30; 40; 50] 60 Hs Hn) as [H1 H2].
  split; [exact H1|]. apply H2.
  - discriminate.
  - right. vm_compute. reflexivity.
Defined.

(** C4 (termination).  For every vector, of any length and in any order,
    and every target, the search returns a value: the loop of the model
    never uses up its budget of [length arr + 1] iterations, and a larger
    budget changes nothing; and every iteration the search performs either
    leaves the loop (the condition fails, or the body returns) or ends
    with a window [[low', high']] inside [[low, high]] that is strictly
    smaller. *)
Theorem search_terminates (arr : vec) (target : Z) :
  (exists tr r,
     interpolationSearch arr target = (tr, Value r)
     /\ forall fuel, (length arr < fuel)%nat ->
          search_loop fuel arr target 0 (Int.of_size_minus_one (length arr))
          = (tr, Value r))
  /\ (forall low high,
        visits arr target low high ->
        exists tr s,
          iteration arr target low high = (tr, Value s)
          /\ match s with
             | Exit | Return _ => True
             | Continue low' high' =>
                 low <= low' /\ low' <= high' /\ high' <= high
                 /\ high' - low' < high - low
             end).
Proof.
  split.
  - destruct (interpolationSearch_spec arr target)
      as (tr & r & Hrun & Heq & _ & _).
    exists tr, r. split; assumption.
  - intros low high Hv.
    destruct (visits_invariant arr target low high Hv)
      as (Hlo & Hhi & Ilo & Ihi).
    destruct (iteration_spec arr target low high Hlo Hhi Ilo Ihi)
      as (tr & s & Hit & _ & Hs & _).
    exists tr, s. split; [assumption|].
    destruct s as [|r|low' high']; auto.
    apply (continue_shrinks arr target low high low' high' Hs).
Qed.

(** An unsorted vector: the search returns, and its first iteration
    narrows the window or leaves the loop. *)
Lemma search_terminates_witness :
  (exists tr r, interpolationSearch [7; 3; 9; 1] 9 = (tr, Value r))
  /\ (exists tr s,
        iteration [7; 3; 9; 1] 9 0 3 = (tr, Value s)
        /\ match s with
           | Exit | Return _ => True
           | Continue low' high' =>
               0 <= low' /\ low' <= high' /\ high' <= 3
               /\ high' - low' < 3 - 0
           end).
Proof.
  destruct (search_terminates [7; 3; 9; 1] 9) as [(tr & r & Hrun & _) Hstep].
  split; [exists tr, r; exact Hrun|].
  apply Hstep. apply visits_first.
Defined.

(** C5 (safety of every probe).  In a vector of [int]s, for every state
    [(low, high)] in which the search evaluates its loop condition with
    [low <= high] (the only states in which it reads the vector), [low],
    [high] and every position clamped into [[low, high]] are indices
    within [[0, n-1]]; every element read and every probe recorded in the
    trace is in bounds, and the search never reads outside the vector;
    every division is by a non-zero divisor; and an iteration divides
    only when [arr[high] <> arr[low]], by the difference of the two. *)
Theorem search_safe (arr : vec) (target : Z) :
  int_vec arr ->
  (forall low high,
     visits arr target low high -> low <= high ->
     valid_index arr low /\ valid_index arr high
     /\ forall pos, valid_index arr (clamp pos low high))
  /\ Forall (event_safe arr) (trace_of (interpolationSearch arr target))
  /\ outcome_of (interpolationSearch arr target) <> OutOfBounds
  /\ (forall low high d,
        visits arr target low high ->
        In (Divide d) (trace_of (iteration arr target low high)) ->
        at_index arr high <> at_index arr low
        /\ d = Int.sub (at_index arr high) (at_index arr low)
        /\ d <> 0).
Proof.
  intros Hint. split; [|split; [|split]].
  - intros low high Hv Hle.
    destruct (visits_invariant arr target low high Hv)
      as (Hlo & Hhi & _ & _).
    unfold valid_index. repeat split; try lia;
      pose proof (clamp_range pos low high Hle); lia.
  - destruct (interpolationSearch_spec arr target)
      as (tr & r & _ & Heq & Hev & _).
    rewrite Heq. cbn [trace_of fst].
    eapply Forall_impl; [|exact Hev].
    intros e. apply event_ok_safe; auto; [lia|apply of_size_upper].
  - destruct (interpolationSearch_spec arr target)
      as (tr & r & _ & Heq & _ & _).
    rewrite Heq. discriminate.
  - intros low high d Hv Hin.
    destruct (visits_invariant arr target low high Hv)
      as (Hlo & Hhi & Ilo & Ihi).
    destruct (iteration_spec arr target low high Hlo Hhi Ilo Ihi)
      as (tr & s & Hit & Hev & _ & _).
    rewrite Hit in Hin. cbn [trace_of fst] in Hin.
    rewrite Forall_forall in Hev. specialize (Hev _ Hin).
    destruct Hev as (_ & Hne & ->).
    repeat split; auto.
    apply sub_nonzero; auto using at_index_in_range.
Qed.

(** The demonstration array, searched for the absent 35. *)
Lemma search_safe_witness :
  Forall (event_safe [10; 20; 30; 40; 50])
    (trace_of (interpolationSearch [10; 20; 30; 40; 50] 35)).
Proof.
  apply (search_safe [10; 20; 30; 40; 50] 35).
  repeat constructor; vm_compute; discriminate.
Defined.

(** C6, as stated, at [S = [0, 49]] and [t = 49]: the probe is computed
    ([0 < 1], [S[1] <> S[0]], [S[0] <= t <= S[1]]), the position of the
    specification is [0 + floor(1 * 49 / 49) = 1], and the search probes
    position 0, because the double product [(1.0 / 49) * 49] is
    [1 - 2^-53] and the conversion to [int] discards the fraction. *)
Lemma probe_position_counterexample :
  let arr := [0; 49] in
  probe_computed arr 49 0 1
  /\ exact_position 0 1 (at_index arr 0) (at_index arr 1) 49 = 1
  /\ probe_position 0 1 (at_index arr 0) (at_index arr 1) 49 = 0
  /\ filter is_probe (trace_of (interpolationSearch arr 49))
     = [Probe 0].
Proof.
  cbv zeta. split; [|split; [|split]].
  - unfold probe_computed. repeat split; vm_compute; congruence.
  - vm_compute. reflexivity.
  - vm_compute. reflexivity.
  - vm_compute. reflexivity.
Qed.

(** Where the [int] difference of the end elements overflows, the
    estimate is further off: between [INT_MIN] and [INT_MAX] the
    difference wraps to -1, the double value leaves the range of [int],
    and the clamped position is [low], two positions below the exact
    one. *)
Example probe_position_overflow :
  let arr := [-2147483648; -1; 0; 1; 2147483647] in
  probe_computed arr 1 0 4
  /\ Int.sub (at_index arr 4) (at_index arr 0) = -1
  /\ exact_position 0 4 (at_index arr 0) (at_index arr 4) 1 = 2
  /\ probe_position 0 4 (at_index arr 0) (at_index arr 4) 1 = 0.
Proof.
  cbv zeta. split; [|split; [|split]].
  - unfold probe_computed. repeat split; vm_compute; congruence.
  - vm_compute. reflexivity.
  - vm_compute. reflexivity.
  - vm_compute. reflexivity.
Qed.

(** C6 (probe-position arithmetic), amended: whenever the probe is
    computed ([low < high], [S[high] <> S[low]],
    [S[low] <= t <= S[high]]), the one position the iteration probes is
    the double-precision value of
    [low + ((high - low) / (S[high] - S[low])) * (t - S[low])], truncated
    to [int] and clamped into [[low, high]]; it lies in [[low, high]],
    and when the difference [S[high] - S[low]] is an [int] (the
    subtraction does not overflow) it is within one position of
    [low + floor((high - low) * (t - S[low]) / (S[high] - S[low]))]. *)
Theorem probe_position_near_exact (arr : vec) (target low high : Z) :
  probe_computed arr target low high ->
  let a_low := at_index arr low in
  let a_high := at_index arr high in
  let pos := probe_position low high a_low a_high target in
  let exact := exact_position low high a_low a_high target in
  (exists tr s,
     loop_body arr target low high = (tr, Value s)
     /\ filter is_probe tr = [Probe pos])
  /\ low <= pos <= high
  /\ (a_high - a_low <= Int.max_signed ->
      low <= exact <= high /\ exact - 1 <= pos <= exact + 1).
Proof.
  intros Hpc a_low a_high pos exact.
  split; [apply (loop_body_probe arr target low high Hpc)|].
  destruct Hpc as (Hlo & Hlt & Hhi & Ilo & Ihi & Hne & Hrange).
  fold a_low a_high in Hne, Hrange.
  assert (low <= pos <= high) as Hpos
    by (apply clamp_range; lia).
  split; [exact Hpos|]. intros Hd.
  assert (a_low < a_high) as Hlt' by lia.
  pose proof (estimate_near low high a_low a_high target Hlo Hlt
                (proj2 Ihi) Hrange Hlt' Hd) as Hnear.
  cbv zeta in Hnear. fold exact in Hnear.
  assert (low <= exact <= high) as Hex.
  { subst exact. unfold exact_position.
    assert (0 <= (high - low) * (target - a_low) / (a_high - a_low)
            <= high - low); [|lia].
    split.
    - apply Z.div_pos; [|lia]. apply Z.mul_nonneg_nonneg; lia.
    - apply Z.div_le_upper_bound; [lia|].
      rewrite Z.mul_comm. apply Z.mul_le_mono_nonneg_r; lia. }
  split; [exact Hex|].
  subst pos. unfold probe_position, clamp in *.
  destruct (Z.ltb_spec (estimate low high a_high a_low a_low target) low);
    [lia|].
  destruct (Z.ltb_spec high (estimate low high a_high a_low a_low target));
    lia.
Qed.

(** The first probe of the demonstration. *)
Lemma probe_position_near_exact_witness :
  let arr := [10; 20; 30; 40; 50] in
  let pos := probe_position 0 4 (at_index arr 0) (at_index arr 4) 40 in
  let exact := exact_position 0 4 (at_index arr 0) (at_index arr 4) 40 in
  (exists tr s,
     loop_body arr 40 0 4 = (tr, Value s)
     /\ filter is_probe tr = [Probe pos])
  /\ 0 <= pos <= 4
  /\ 0 <= exact <= 4 /\ exact - 1 <= pos <= exact + 1.
Proof.
  assert (probe_computed [10; 20; 30; 40; 50] 40 0 4) as Hpc.
  { unfold probe_computed. repeat split; vm_compute; congruence. }
  destruct (probe_position_near_exact [10; 20; 30; 40; 50] 40 0 4 Hpc)
    as (Hprobe & Hpos & Hnear).
  split; [exact Hprobe|]. split; [exact Hpos|].
  apply Hnear. vm_compute. discriminate.
Defined.

(** C7 (empty sequence).  On the empty vector the search returns the
    sentinel for every target, and its trace is empty: no element is
    read. *)
Theorem search_empty (target : Z) :
  interpolationSearch [] target = ([], Value not_found).
Proof.
  unfold interpolationSearch. cbn [length].
  replace (Int.of_size_minus_one 0) with (-1) by (vm_compute; reflexivity).
  apply search_loop_inverted. lia.
Qed.

(** C9 (literal demonstration).  The search for 40 in
    [[10, 20, 30, 40, 50]] returns index 3. *)
Theorem search_demonstration :
  outcome_of (interpolationSearch [10; 20; 30; 40; 50] 40) = Value 3.
Proof. vm_compute. reflexivity. Qed.

(** C10, as stated, at a vector the narrowing of [size() - 1] to [int]
    defeats: in a non-empty vector of [2^31 + 1] ones, the search for 1
    returns the sentinel, not index 0. *)
Lemma search_all_equal_counterexample :
  let arr := repeat 1 (Z.to_nat (2 ^ 31 + 1)) in
  arr <> [] /\ Forall (fun x => x = 1) arr
  /\ outcome_of (interpolationSearch arr 1) = Value not_found
  /\ outcome_of (interpolationSearch arr 1) <> Value 0.
Proof.
  intros arr. subst arr.
  assert (Z.of_nat (length (repeat 1 (Z.to_nat (2 ^ 31 + 1)))) = 2 ^ 31 + 1)
    as Hlen by (rewrite repeat_length, Z2Nat.id; lia).
  split; [|split; [|split]].
  - intros Heq. rewrite Heq in Hlen. cbn [length Z.of_nat] in Hlen. lia.
  - apply Forall_forall. intros x Hx. apply (repeat_spec _ _ _ Hx).
  - rewrite (interpolationSearch_too_long (repeat 1 _) 1 Hlen). reflexivity.
  - rewrite (interpolationSearch_too_long (repeat 1 _) 1 Hlen). discriminate.
Qed.

(** C10 (all-equal sequence), amended: for every non-empty vector of at
    most [2^31] elements, all equal to [c], the search for [c] returns
    exactly index 0: the equal-endpoints branch returns [low] in the first
    iteration, where [low = 0]. *)
Theorem search_all_equal (arr : vec) (c : Z) :
  arr <> [] ->
  Forall (fun x => x = c) arr ->
  Z.of_nat (length arr) <= 2 ^ 31 ->
  outcome_of (interpolationSearch arr c) = Value 0.
Proof.
  intros Hne Hall Hlen.
  assert (0 < Z.of_nat (length arr)) as Hpos.
  { destruct arr; [contradiction|]. cbn [length]. lia. }
  assert (forall i, valid_index arr i -> at_index arr i = c) as Hat.
  { intros i Hi. unfold at_index.
    apply (proj1 (Forall_forall _ _) Hall). apply nth_In.
    unfold valid_index in Hi. lia. }
  unfold interpolationSearch. rewrite (of_size_exact _ Hlen).
  set (high := Z.of_nat (length arr) - 1).
  destruct (iteration_spec arr c 0 high) as (tr & s & Hit & _ & Hs & _);
    try (subst high; unfold Int.in_range, Int.min_signed, Int.max_signed; lia).
  assert (at_index arr 0 = c) as H0 by (apply Hat; unfold valid_index; lia).
  assert (at_index arr high = c) as H1
    by (apply Hat; unfold valid_index; subst high; lia).
  cbn [search_loop]. rewrite Hit. cbn [bind].
  destruct s as [|r|l h]; cbn in Hs.
  - exfalso. apply Hs. subst high. lia.
  - destruct Hs as (_ & _ & [[_ ->]|(Habs & _)]); [reflexivity|].
    exfalso. lia.
  - exfalso. destruct Hs as (_ & _ & Habs & _). lia.
Qed.

(** Four equal elements. *)
Lemma search_all_equal_witness :
  outcome_of (interpolationSearch [3; 3; 3; 3] 3) = Value 0.
Proof.
  apply (search_all_equal [3; 3; 3; 3] 3).
  - discriminate.
  - repeat constructor.
  - cbn. lia.
Defined.

(** * The claim about [generateSortedArray] *)

(** C8, as stated, at the two ends of the sizes it covers.  For
    [size = 0] the bound [size * 10] is 0, and for [size = 214748365],
    whose tenfold is not an [int], the product wraps to
    [-2147483646]: in both cases [uniform_int_distribution<>] is
    constructed with a bound below 1, outside its precondition [a <= b],
    and no vector is returned, whatever the distribution would draw. *)
Lemma generateSortedArray_counterexample :
  draw_contract lcg_draw
  /\ Int.mul 0 10 = 0
  /\ generateSortedArray lcg_draw 0 42 = None
  /\ 0 <= 214748365
  /\ Int.mul 214748365 10 = -2147483646
  /\ generateSortedArray lcg_draw 214748365 42 = None
  /\ (forall (engine : Type) (draw : Z -> Z -> engine -> option (Z * engine))
             (gen : engine),
        generateSortedArray draw 0 gen = None
        /\ generateSortedArray draw 214748365 gen = None).
Proof.
  assert (Int.mul 0 10 = 0) as Hzero by (vm_compute; reflexivity).
  assert (Int.mul 214748365 10 = -2147483646) as Hmul
    by (vm_compute; reflexivity).
  assert (forall (engine : Type)
                 (draw : Z -> Z -> engine -> option (Z * engine))
                 (gen : engine),
            generateSortedArray draw 0 gen = None
            /\ generateSortedArray draw 214748365 gen = None) as Hnone.
  { intros engine draw gen.
    split; apply generateSortedArray_undefined; lia. }
  split; [apply lcg_draw_contract|]. split; [exact Hzero|].
  split; [apply Hnone|]. split; [lia|]. split; [exact Hmul|].
  split; [apply Hnone|exact Hnone].
Qed.

(** C8 (generator postcondition), amended: for every size with
    [1 <= size] and [size * 10 <= INT_MAX], and every distribution that
    honours the contract of [uniform_int_distribution],
    [generateSortedArray size] returns a vector of exactly [size]
    integers that is non-decreasing and whose elements all lie in
    [[1, size * 10]]. *)
Theorem generateSortedArray_post
  (engine : Type) (draw : Z -> Z -> engine -> option (Z * engine))
  (size : Z) (gen : engine) :
  draw_contract draw ->
  1 <= size -> size * 10 <= Int.max_signed ->
  exists arr,
    generateSortedArray draw size gen = Some arr
    /\ Z.of_nat (length arr) = size
    /\ non_decreasing arr
    /\ Forall (fun x => 1 <= x <= size * 10) arr.
Proof.
  intros Hdraw Hsize Hmax.
  assert (Int.mul size 10 = size * 10) as Hmul.
  { apply wrap_id. unfold Int.in_range, Int.min_signed, Int.max_signed in *.
    lia. }
  rewrite generateSortedArray_defined by lia. rewrite Hmul.
  assert (exists fresh,
            fill draw (Z.to_nat size) 0 (size * 10)
              (repeat 0 (Z.to_nat size)) gen = Some fresh
            /\ length fresh = Z.to_nat size
            /\ Forall (fun x => 1 <= x <= size * 10) fresh)
    as (fresh & -> & Hlen & Hall).
  { destruct (fill_spec engine draw (size * 10) Hdraw ltac:(lia)
                (repeat 0 (Z.to_nat size)) [] gen)
      as (fresh & Hfill & Hlen & Hall).
    { rewrite repeat_length. cbn [length].
      unfold Int.max_signed in *. lia. }
    rewrite repeat_length in Hfill, Hlen. cbn in Hfill.
    exists fresh. auto. }
  exists (sort fresh). split; [reflexivity|].
  pose proof (sort_permutation fresh) as Hperm.
  split; [|split].
  - rewrite <- (Permutation_length Hperm). lia.
  - apply sort_non_decreasing.
  - apply (Permutation_Forall Hperm Hall).
Qed.

(** Five draws from the linear congruential engine seeded with 42. *)
Lemma generateSortedArray_post_witness :
  exists arr,
    generateSortedArray lcg_draw 5 42 = Some arr
    /\ Z.of_nat (length arr) = 5
    /\ non_decreasing arr
    /\ Forall (fun x => 1 <= x <= 5 * 10) arr.
Proof.
  apply (generateSortedArray_post Z lcg_draw 5 42).
  - exact lcg_draw_contract.
  - lia.
  - vm_compute. discriminate.
Defined.

(** * Further properties of the code *)

(** ** Probes *)

Lemma probes_app tr tr' : probes (tr ++ tr') = probes tr ++ probes tr'.
Proof.
  induction tr as [|e tr IH]; [reflexivity|].
  destruct e; cbn; rewrite IH; reflexivity.
Qed.

(** One iteration probes at most once, at the position that decides how
    the window is narrowed. *)
Lemma iteration_probes arr target low high :
  0 <= low -> high < Z.of_nat (length arr) ->
  Int.in_range low -> Int.in_range high ->
  exists tr s,
    iteration arr target low high = (tr, Value s)
    /\ match s with
       | Exit => probes tr = []
       | Return r =>
           low <= high
           /\ (probes tr = [] \/ (probes tr = [r] /\ low <= r <= high))
       | Continue low' high' =>
           exists pos,
             probes tr = [pos] /\ low <= pos <= high
             /\ ((low' = pos + 1 /\ high' = high /\ pos < high)
                 \/ (low' = low /\ high' = pos - 1 /\ low < pos))
       end.
Proof.
  intros Hlo Hhi Ilo Ihi. unfold iteration, loop_condition.
  destruct (Z.leb_spec low high) as [Hle|Hgt];
    [|do 2 eexists; split; reflexivity].
  assert (valid_index arr low) as Vlow by (unfold valid_index; lia).
  assert (valid_index arr high) as Vhigh by (unfold valid_index; lia).
  rewrite (load_valid arr low Vlow). cbn [bind]. rewrite Z.geb_leb.
  destruct (Z.leb_spec (at_index arr low) target) as [Hl|Hl];
    [|do 2 eexists; split; reflexivity].
  rewrite (load_valid arr high Vhigh). cbn [bind ret app].
  destruct (Z.leb_spec target (at_index arr high)) as [Hh|Hh];
    [|do 2 eexists; split; reflexivity].
  unfold loop_body.
  rewrite (load_valid arr high Vhigh), (load_valid arr low Vlow).
  cbn [bind].
  destruct (Z.eqb_spec (at_index arr high) (at_index arr low)) as [Heq|Hne].
  - cbn [bind ret app]. do 2 eexists. split; [reflexivity|].
    split; [lia|]. left. reflexivity.
  - cbn [bind emit].
    set (pos := clamp _ low high).
    assert (low <= pos <= high) as Hpos by (apply clamp_range; lia).
    rewrite (load_valid arr pos) by (unfold valid_index; lia).
    cbn [bind].
    destruct (Z.eqb_spec (at_index arr pos) target) as [Ht|Ht].
    + cbn [ret app]. do 2 eexists. split; [reflexivity|].
      split; [lia|]. right. split; [reflexivity|lia].
    + destruct (Z.ltb_spec (at_index arr pos) target) as [Hlt|Hge];
        cbn [ret app]; do 2 eexists; (split; [reflexivity|]);
        exists pos; (split; [reflexivity|]); (split; [lia|]).
      * left. assert (pos <> high) by (intros ->; lia).
        split; [|lia]. apply wrap_id. unfold Int.in_range in *. lia.
      * right. assert (pos <> low) by (intros ->; lia).
        split; [reflexivity|]. split; [|lia].
        apply wrap_id. unfold Int.in_range in *. lia.
Qed.

Lemma search_loop_probes (k : nat) :
  forall arr target low high,
    0 <= low -> high < Z.of_nat (length arr) ->
    Int.in_range low -> Int.in_range high ->
    high - low + 1 <= Z.of_nat k ->
    exists tr r,
      (forall fuel, (k < fuel)%nat ->
         search_loop fuel arr target low high = (tr, Value r))
      /\ Forall (fun pos => low <= pos <= high) (probes tr)
      /\ NoDup (probes tr)
      /\ Z.of_nat (length (probes tr)) <= Z.max 0 (high - low + 1).
Proof.
  assert (forall arr target low high tr r,
            iteration arr target low high
            = (tr, Value (match r with Some r => Return r | None => Exit end)) ->
            forall fuel,
              search_loop (S fuel) arr target low high
              = (tr, Value (match r with Some r => r | None => -1 end)))
    as Hstop.
  { intros arr target low high tr r Hit fuel. cbn [search_loop].
    rewrite Hit. cbn [bind]. destruct r; cbn [ret]; rewrite app_nil_r;
      reflexivity. }
  induction k as [|k IH]; intros arr target low high Hlo Hhi Ilo Ihi Hk;
    destruct (iteration_probes arr target low high Hlo Hhi Ilo Ihi)
      as (tr & s & Hit & Hs);
    (destruct s as [|r|low' high']).
  - exists tr, (-1). split.
    + intros [|fuel] Hf; [lia|]. apply (Hstop _ _ _ _ _ None Hit).
    + rewrite Hs. cbn. repeat split; try constructor. lia.
  - destruct Hs as [Hle _]. lia.
  - destruct Hs as (pos & _ & Hpos & _). lia.
  - exists tr, (-1). split.
    + intros [|fuel] Hf; [lia|]. apply (Hstop _ _ _ _ _ None Hit).
    + rewrite Hs. cbn. repeat split; try constructor. lia.
  - destruct Hs as [Hle Hs]. exists tr, r. split.
    + intros [|fuel] Hf; [lia|]. apply (Hstop _ _ _ _ _ (Some r) Hit).
    + destruct Hs as [-> | [-> Hr]]; cbn [length].
      * repeat split; try constructor. lia.
      * split; [repeat constructor; lia|].
        split; [repeat constructor; cbn; tauto|lia].
  - destruct Hs as (pos & Hp & Hpos & Hcase).
    destruct (IH arr target low' high')
      as (tr' & r & Hrun & Hin & Hnd & Hlen);
      try (unfold Int.in_range in *; lia).
    exists (tr ++ tr'), r. split; [|split; [|split]].
    + intros [|fuel] Hf; [lia|]. cbn [search_loop]. rewrite Hit.
      cbn [bind]. rewrite (Hrun fuel) by lia. reflexivity.
    + rewrite probes_app, Hp. cbn [app]. constructor; [lia|].
      eapply Forall_impl; [|exact Hin]. cbn. intros p Hp'. lia.
    + rewrite probes_app, Hp. cbn [app]. constructor; [|exact Hnd].
      intros Habs. rewrite Forall_forall in Hin. specialize (Hin _ Habs).
      lia.
    + rewrite probes_app, Hp. cbn [app length]. lia.
Qed.

(** X1 (no position is probed twice).  For every vector and target the
    positions the search probes are pairwise distinct indices of the
    vector, so a search makes at most as many probes as the vector has
    elements: the worst case is linear. *)
Theorem probes_distinct (arr : vec) (target : Z) :
  let ps := probes (trace_of (interpolationSearch arr target)) in
  NoDup ps /\ Forall (valid_index arr) ps
  /\ (length ps <= length arr)%nat.
Proof.
  pose proof (of_size_upper (length arr)) as Hup.
  pose proof (of_size_in_range (length arr)) as Hin.
  destruct (search_loop_probes (length arr) arr target 0
              (Int.of_size_minus_one (length arr)))
    as (tr & r & Hrun & Hpos & Hnd & Hlen);
    try (unfold Int.in_range, Int.min_signed, Int.max_signed in *; lia).
  unfold interpolationSearch. rewrite (Hrun (S (length arr))) by lia.
  cbn [trace_of fst]. split; [exact Hnd|]. split; [|lia].
  eapply Forall_impl; [|exact Hpos].
  cbn. intros p Hp. unfold valid_index. lia.
Qed.

(** X2 (single-element vector).  On a vector of one element the search
    returns index 0 when the element is the target and -1 otherwise, and
    it does so without probing. *)
Theorem search_singleton (x target : Z) :
  outcome_of (interpolationSearch [x] target)
  = Value (if x =? target then 0 else not_found)
  /\ probes (trace_of (interpolationSearch [x] target)) = [].
Proof.
  unfold interpolationSearch. cbn [length].
  replace (Int.of_size_minus_one 1) with 0 by (vm_compute; reflexivity).
  cbn [search_loop]. unfold iteration, loop_condition, loop_body.
  rewrite (load_valid [x] 0) by (unfold valid_index; cbn; lia).
  change (at_index [x] 0) with x.
  change (0 <=? 0) with true. cbv iota. cbn [bind]. rewrite Z.geb_leb.
  destruct (Z.leb_spec x target) as [Hl|Hl]; cbn [bind ret app].
  - destruct (Z.leb_spec target x) as [Hh|Hh]; cbn [bind ret app].
    + rewrite Z.eqb_refl. cbn [bind ret app].
      destruct (Z.eqb_spec x target); [split; reflexivity|lia].
    + destruct (Z.eqb_spec x target); [lia|split; reflexivity].
  - destruct (Z.eqb_spec x target); [lia|split; reflexivity].
Qed.

(** X3 (a return inside the loop is a match).  Whenever the body of the
    loop returns, in any state the search reaches, the value returned is
    an index inside the current window whose element is the target: the
    alternative [-1] of line 35 is never taken, and the sentinel only
    comes from the [return -1] after the loop. *)
Theorem body_return_is_match (arr : vec) (target low high : Z)
  (tr : list event) (r : Z) :
  visits arr target low high ->
  iteration arr target low high = (tr, Value (Return r)) ->
  low <= r <= high /\ valid_index arr r /\ at_index arr r = target
  /\ r <> not_found.
Proof.
  intros Hv Hit.
  destruct (visits_invariant arr target low high Hv)
    as (Hlo & Hhi & Ilo & Ihi).
  destruct (iteration_spec arr target low high Hlo Hhi Ilo Ihi)
    as (tr0 & s & Hit' & _ & Hs & _).
  rewrite Hit in Hit'. injection Hit' as _ <-. cbn in Hs.
  assert (low <= r <= high /\ at_index arr r = target) as [Hr Hat].
  { destruct Hs as (Hle & Hrange & [[Heq ->]|(_ & Hin & Hat)]);
      [split; lia|auto]. }
  unfold valid_index, not_found. repeat split; auto; lia.
Qed.

(** The demonstration: the first iteration returns 3. *)
Lemma body_return_is_match_witness :
  0 <= 3 <= 4 /\ valid_index [10; 20; 30; 40; 50] 3
  /\ at_index [10; 20; 30; 40; 50] 3 = 40 /\ 3 <> not_found.
Proof.
  eapply (body_return_is_match [10; 20; 30; 40; 50] 40 0 4).
  - exact (visits_first [10; 20; 30; 40; 50] 40).
  - vm_compute. reflexivity.
Defined.

(** X4 (narrowing keeps every occurrence).  In a sorted non-decreasing
    vector, when an iteration narrows the window from [[low, high]] to
    [[low', high']], every occurrence of the target inside the old window
    lies inside the new one. *)
Theorem narrowing_keeps_occurrences (arr : vec) (target low high : Z)
  (tr : list event) (low' high' k : Z) :
  non_decreasing arr ->
  visits arr target low high ->
  iteration arr target low high = (tr, Value (Continue low' high')) ->
  low <= k <= high -> at_index arr k = target ->
  low' <= k <= high'.
Proof.
  intros Hsort Hv Hit Hk Hat.
  destruct (visits_invariant arr target low high Hv)
    as (Hlo & Hhi & Ilo & Ihi).
  destruct (iteration_spec arr target low high Hlo Hhi Ilo Ihi)
    as (tr0 & s & Hit' & _ & Hs & _).
  rewrite Hit in Hit'. injection Hit' as _ <-. cbn in Hs.
  destruct Hs as (Hle & Hrange & Hne & pos & Hpos & Hcase).
  destruct Hcase as [(Hlt & -> & ->)|(Hgt & -> & ->)].
  - destruct (Z_le_gt_dec k pos) as [Hkp|Hkp]; [|lia].
    pose proof (non_decreasing_pairs arr Hsort k pos). lia.
  - destruct (Z_le_gt_dec pos k) as [Hkp|Hkp]; [|lia].
    pose proof (non_decreasing_pairs arr Hsort pos k). lia.
Qed.

(** The window [[0, 1]] of [[0; 49]] searched for 49: the probe is 0, the
    window becomes [[1, 1]] and keeps the occurrence at 1. *)
Lemma narrowing_keeps_occurrences_witness : 1 <= 1 <= 1.
Proof.
  eapply (narrowing_keeps_occurrences [0; 49] 49 0 1 _ 1 1 1).
  - intros i Hi Hn. cbn in Hn. assert (i = 0) as -> by lia.
    vm_compute. discriminate.
  - exact (visits_first [0; 49] 49).
  - vm_compute. reflexivity.
  - lia.
  - reflexivity.
Defined.

(** X5 (vectors the [int] bound cannot hold).  For a vector of more than
    [2^31] and at most [2^32] elements [size() - 1] narrows to a negative
    [high]: the search returns -1 for every target, without reading an
    element. *)
Theorem search_beyond_int (arr : vec) (target : Z) :
  2 ^ 31 < Z.of_nat (length arr) <= 2 ^ 32 ->
  interpolationSearch arr target = ([], Value not_found).
Proof.
  intros Hlen. unfold interpolationSearch.
  apply search_loop_inverted.
  unfold Int.of_size_minus_one, Int.size_modulus, Int.wrap,
    Int.min_signed, Int.modulus.
  rewrite (Z.mod_small (Z.of_nat (length arr) - 1)) by lia.
  replace (Z.of_nat (length arr) - 1 - - 2 ^ 31)
    with (Z.of_nat (length arr) - 1 - 2 ^ 31 + 1 * 2 ^ 32) by lia.
  rewrite Z.mod_add by lia. rewrite Z.mod_small by lia. lia.
Qed.

(** A vector of [2^31 + 5] elements. *)
Lemma search_beyond_int_witness :
  interpolationSearch (repeat 7 (Z.to_nat (2 ^ 31 + 5))) 7
  = ([], Value not_found).
Proof.
  apply (search_beyond_int (repeat 7 (Z.to_nat (2 ^ 31 + 5))) 7).
  rewrite repeat_length, Z2Nat.id by lia. lia.
Defined.

(** ** The left end of the window *)

Lemma to_int_of_int z :
  0 <= z <= Int.max_signed -> Double.to_int (Double.of_int z) = z.
Proof.
  unfold Int.max_signed. intros Hz.
  destruct (Z.eq_dec z 0) as [->|Hnz]; [reflexivity|].
  pose proof (of_int_spec z ltac:(lia)) as Hn.
  destruct (to_int_spec _ _ _ _ Hn) as [_ [T1 T2]].
  { apply IZR_lt. lia. }
  rewrite <- (plus_IZR _ 1) in T2.
  apply le_IZR in T1. apply lt_IZR in T2. lia.
Qed.

(** A zero offset, or one that is not a number, leaves [low]. *)
Lemma estimate_left_end low high a_low a_high :
  0 <= low <= high -> high <= Int.max_signed ->
  clamp (estimate low high a_high a_low a_low a_low) low high = low.
Proof.
  intros Hlow Hhigh. unfold estimate.
  replace (Int.sub a_low a_low) with 0
    by (unfold Int.sub; rewrite Z.sub_diag; vm_compute; reflexivity).
  change (Double.of_int 0) with (S754_zero false).
  generalize (Double.div (Double.of_int (Int.sub high low))
                (Double.of_int (Int.sub a_high a_low))) as slope.
  intros slope.
  assert (forall x,
            x = S754_nan \/ (exists s, x = S754_zero s) ->
            clamp (Double.to_int (Double.add (Double.of_int low) x)) low high
            = low) as Hadd.
  { intros x Hx. destruct (Z.eq_dec low 0) as [->|Hnz].
    - change (Double.of_int 0) with (S754_zero false).
      destruct Hx as [->|[s ->]].
      + vm_compute Double.to_int. unfold clamp.
        destruct (Z.ltb_spec (-2147483648) 0); [reflexivity|lia].
      + assert (Double.to_int (Double.add (S754_zero false) (S754_zero s)) = 0)
          as -> by (destruct s; reflexivity).
        unfold clamp. destruct (Z.ltb_spec 0 0); [lia|].
        destruct (Z.ltb_spec high 0); [lia|reflexivity].
    - pose proof (to_int_of_int low ltac:(lia)) as Hexact.
      pose proof (of_int_spec low ltac:(unfold Int.max_signed in *; lia))
        as (m & e & Heq & _).
      destruct Hx as [->|[s ->]].
      + rewrite Heq. unfold Double.add, SFadd, Double.to_int.
        unfold clamp, Int.min_signed.
        destruct (Z.ltb_spec (- 2 ^ 31) low); [reflexivity|lia].
      + assert (Double.add (Double.of_int low) (S754_zero s)
                = Double.of_int low) as ->
          by (rewrite Heq; reflexivity).
        rewrite Hexact. unfold clamp.
        destruct (Z.ltb_spec low low); [lia|].
        destruct (Z.ltb_spec high low); [lia|reflexivity]. }
  apply Hadd. unfold Double.mul, SFmul.
  destruct slope as [s|s| |s m e]; eauto.
Qed.

(** X6 (the left end is probed exactly).  Whenever the target is the
    element at [low], the probe position is [low] itself, whatever the
    element at [high] is: the offset of line 39 is a zero of either sign,
    or not a number when the slope is infinite or undefined, and neither
    rounding, nor an overflow of [arr[high] - arr[low]], nor the clamp
    moves the probe away from [low]. *)
Theorem probe_position_left_end (low high a_low a_high : Z) :
  0 <= low <= high -> Int.in_range high ->
  probe_position low high a_low a_high a_low = low.
Proof.
  intros Hlow [_ Hhigh]. unfold probe_position.
  apply estimate_left_end; assumption.
Qed.

(** The window [[0, 4]] with end elements 10 and 50. *)
Lemma probe_position_left_end_witness : probe_position 0 4 10 50 10 = 0.
Proof.
  apply (probe_position_left_end 0 4 10 50).
  - lia.
  - vm_compute. split; discriminate.
Defined.

(** X7 (searching for the first element).  In a non-empty sorted
    non-decreasing vector of at most [2^31] elements the search for the
    element at index 0 returns index 0 in the first iteration.  When the
    last element equals the first, the equal-ends branch of lines 33-36
    returns: after the reads of the loop condition and of the
    comparison, [arr[0]] is read once more, and there is neither a
    division nor a probe.  When the last element differs, the search
    divides once, by [arr[size - 1] - arr[0]], probes position 0 once and
    returns from line 45.  With duplicates of the smallest element it is
    its first occurrence that is returned. *)
Theorem search_first_element (arr : vec) :
  arr <> [] -> Z.of_nat (length arr) <= 2 ^ 31 -> non_decreasing arr ->
  let last := Z.of_nat (length arr) - 1 in
  let first := at_index arr 0 in
  (at_index arr last = first ->
   interpolationSearch arr first
   = ([Load 0; Load last; Load last; Load 0; Load 0], Value 0))
  /\ (at_index arr last <> first ->
      interpolationSearch arr first
      = ([Load 0; Load last; Load last; Load 0; Load last; Load 0;
          Divide (Int.sub (at_index arr last) first);
          Load 0; Probe 0; Load 0],
         Value 0)).
Proof.
  intros Hne Hlen Hsorted last first. unfold interpolationSearch.
  rewrite of_size_exact by assumption. fold last.
  assert (0 < Z.of_nat (length arr)) as Hpos
    by (destruct arr; [congruence|cbn [length]; lia]).
  assert (valid_index arr 0) as V0 by (unfold valid_index; lia).
  assert (valid_index arr last) as Vh by (unfold valid_index, last; lia).
  assert (first <= at_index arr last) as Hord
    by (apply non_decreasing_pairs; [assumption|unfold last; lia..]).
  cbn [search_loop]. unfold iteration, loop_condition, loop_body.
  cbv zeta.
  rewrite (load_valid arr 0 V0), (load_valid arr last Vh). fold first.
  destruct (Z.leb_spec 0 last) as [_|Hc]; [|unfold last in Hc; lia].
  cbn [bind ret app]. rewrite Z.geb_leb, Z.leb_refl. cbn [bind ret app].
  destruct (Z.leb_spec first (at_index arr last)) as [_|Hc]; [|lia].
  cbn [bind ret app].
  destruct (Z.eqb_spec (at_index arr last) first) as [He|He].
  - cbn [bind ret app]. rewrite Z.eqb_refl.
    split; [intros _; reflexivity|intros Hc; contradiction].
  - unfold emit. cbn [bind ret app].
    rewrite (estimate_left_end 0 last first (at_index arr last))
      by (unfold Int.max_signed, last; lia).
    rewrite (load_valid arr 0 V0). fold first. cbn [bind ret app].
    rewrite Z.eqb_refl.
    split; [intros Hc; contradiction|intros _; reflexivity].
Qed.

(** The vector [[3; 8; 8; 20]], whose ends differ, and the vector
    [[4; 4; 4]] of equal elements. *)
Lemma search_first_element_witness :
  interpolationSearch [3; 8; 8; 20] 3
  = ([Load 0; Load 3; Load 3; Load 0; Load 3; Load 0; Divide 17;
      Load 0; Probe 0; Load 0],
     Value 0)
  /\ interpolationSearch [4; 4; 4] 4
     = ([Load 0; Load 2; Load 2; Load 0; Load 0], Value 0).
Proof.
  assert (non_decreasing [3; 8; 8; 20]) as S1.
  { intros i Hi Hn. cbn in Hn.
    assert (i = 0 \/ i = 1 \/ i = 2) as [-> | [-> | ->]] by lia;
      vm_compute; discriminate. }
  assert (non_decreasing [4; 4; 4]) as S2.
  { intros i Hi Hn. cbn in Hn.
    assert (i = 0 \/ i = 1) as [-> | ->] by lia;
      vm_compute; discriminate. }
  split.
  - apply (proj2 (search_first_element [3; 8; 8; 20]
                    ltac:(discriminate) ltac:(cbn; lia) S1)).
    vm_compute. discriminate.
  - apply (proj1 (search_first_element [4; 4; 4]
                    ltac:(discriminate) ltac:(cbn; lia) S2)).
    vm_compute. reflexivity.
Defined.

(** ** Targets outside the range of the elements *)

(** X8 (targets outside the range of the end elements).  For a non-empty
    vector of at most [2^31] elements, sorted or not, the search returns
    [-1] from the first evaluation of the loop condition when the target
    is outside the range of the end elements.  A target smaller than
    [arr[0]] is rejected after the read of [arr[0]] alone: the
    conjunction of line 30 is cut short and [arr[size - 1]] is not read.
    A target that is not smaller than [arr[0]] and larger than
    [arr[size - 1]] is rejected after the reads of [arr[0]] and
    [arr[size - 1]], in this order.  Nothing else is read, and the search
    neither divides nor probes. *)
Theorem search_outside_range (arr : vec) (target : Z) :
  arr <> [] -> Z.of_nat (length arr) <= 2 ^ 31 ->
  (target < at_index arr 0 ->
   interpolationSearch arr target = ([Load 0], Value not_found))
  /\ (at_index arr 0 <= target ->
      at_index arr (Z.of_nat (length arr) - 1) < target ->
      interpolationSearch arr target
      = ([Load 0; Load (Z.of_nat (length arr) - 1)], Value not_found)).
Proof.
  intros Hne Hlen. unfold interpolationSearch.
  rewrite of_size_exact by assumption.
  assert (0 < Z.of_nat (length arr)) as Hpos
    by (destruct arr; [congruence|cbn [length]; lia]).
  set (high := Z.of_nat (length arr) - 1) in *.
  assert (valid_index arr 0) as V0 by (unfold valid_index; lia).
  assert (valid_index arr high) as Vh by (unfold valid_index; lia).
  cbn [search_loop]. unfold iteration, loop_condition.
  rewrite (load_valid arr 0 V0), (load_valid arr high Vh).
  destruct (Z.leb_spec 0 high) as [_|Hc]; [|lia].
  cbn [bind ret app]. rewrite Z.geb_leb.
  destruct (Z.leb_spec (at_index arr 0) target) as [Hl|Hl];
    cbn [bind ret app].
  - split; [intros Hc; lia|]. intros _ Hout.
    destruct (Z.leb_spec target (at_index arr high)) as [Hh|Hh]; [lia|].
    reflexivity.
  - split; [intros _; reflexivity|intros Hc; lia].
Qed.

(** The demonstration vector searched for 5 and for 60. *)
Lemma search_outside_range_witness :
  interpolationSearch [10; 20; 30; 40; 50] 5 = ([Load 0], Value not_found)
  /\ interpolationSearch [10; 20; 30; 40; 50] 60
     = ([Load 0; Load 4], Value not_found).
Proof.
  split.
  - apply (proj1 (search_outside_range [10; 20; 30; 40; 50] 5
                    ltac:(discriminate) ltac:(cbn; lia))).
    vm_compute. reflexivity.
  - apply (proj2 (search_outside_range [10; 20; 30; 40; 50] 60
                    ltac:(discriminate) ltac:(cbn; lia))).
    + vm_compute. discriminate.
    + vm_compute. reflexivity.
Defined.

(** ** The generator as the sorted list of its draws *)

(** The filling loop writes the draws in their order over the rest of the
    vector: the index never wraps below [INT_MAX] elements. *)
Lemma fill_draws (engine : Type)
  (draw : Z -> Z -> engine -> option (Z * engine)) (b : Z) :
  forall rest done gen,
  Z.of_nat (length done + length rest) <= Int.max_signed ->
  fill draw (length rest) (Z.of_nat (length done)) b (done ++ rest) gen
  = option_map (app done) (draws draw (length rest) b gen).
Proof.
  induction rest as [|r rest IH]; intros done gen Hsize.
  - cbn. rewrite app_nil_r. reflexivity.
  - cbn [length fill draws] in *.
    destruct (draw 1 b gen) as [[x gen']|]; [|reflexivity].
    rewrite store_app. unfold Int.add.
    rewrite wrap_id
      by (unfold Int.in_range, Int.min_signed, Int.max_signed in *; lia).
    replace (Z.of_nat (length done) + 1)
      with (Z.of_nat (length (done ++ [x])))
      by (rewrite length_app; cbn; lia).
    replace (done ++ x :: rest) with ((done ++ [x]) ++ rest)
      by (rewrite <- app_assoc; reflexivity).
    rewrite IH by (rewrite length_app; cbn [length]; lia).
    destruct (draws draw (length rest) b gen') as [xs|]; cbn;
      [rewrite <- app_assoc|]; reflexivity.
Qed.



(** ** The rounds of [testPerformance] *)

(** Within the contract of the distribution every draw has a result. *)
Lemma draws_spec (engine : Type)
  (draw : Z -> Z -> engine -> option (Z * engine)) (b : Z) :
  draw_contract draw -> 1 <= b ->
  forall n gen, exists xs,
    draws draw n b gen = Some xs /\ length xs = n.
Proof.
  intros Hdraw Hb. induction n as [|n IH]; intros gen.
  - exists []. split; reflexivity.
  - cbn [draws]. destruct (Hdraw 1 b gen Hb) as (x & gen' & -> & _).
    destruct (IH gen') as (xs & -> & Hlen).
    exists (x :: xs). cbn. auto.
Qed.

(** [rand() % size] is an index of a vector of [size] elements, [rand()]
    being non-negative. *)
Lemma pick_in_range arr rnd :
  0 <= rnd -> arr <> [] ->
  exists idx,
    valid_index arr idx
    /\ pick arr rnd (Z.of_nat (length arr)) = Some (at_index arr idx).
Proof.
  intros Hrnd Hne.
  assert (0 < Z.of_nat (length arr)) as Hpos
    by (destruct arr; [congruence|cbn [length]; lia]).
  exists (Z.rem rnd (Z.of_nat (length arr))).
  assert (valid_index arr (Z.rem rnd (Z.of_nat (length arr)))) as V.
  { unfold valid_index. rewrite Z.rem_mod_nonneg by lia.
    apply Z.mod_pos_bound. lia. }
  split; [exact V|]. unfold pick. rewrite (load_valid _ _ V). reflexivity.
Qed.

(** An element taken from a sorted vector is found. *)
Lemma search_finds_element arr idx :
  Z.of_nat (length arr) <= 2 ^ 31 -> non_decreasing arr ->
  valid_index arr idx ->
  exists i,
    outcome_of (interpolationSearch arr (at_index arr idx)) = Value i
    /\ valid_index arr i
    /\ at_index arr i = at_index arr idx.
Proof.
  intros Hlen Hsorted Hidx.
  destruct (interpolationSearch_spec arr (at_index arr idx))
    as (tr & r & _ & -> & _ & Hpost).
  rewrite of_size_exact in Hpost by assumption.
  exists r. split; [reflexivity|].
  destruct Hpost as [[Hr Hat]|[_ Habsent]].
  - unfold valid_index. split; [lia|exact Hat].
  - exfalso. apply (Habsent Hsorted idx); [|reflexivity].
    unfold valid_index in Hidx. lia.
Qed.

(** One round of the benchmark. *)
Lemma performance_round_spec (engine : Type)
  (draw : Z -> Z -> engine -> option (Z * engine))
  (size : Z) (gen : engine) (rnd : Z) :
  draw_contract draw -> 1 <= size -> size * 10 <= Int.max_signed ->
  0 <= rnd ->
  exists r,
    performance_round draw size gen rnd = Some r
    /\ round_size r = size
    /\ Z.of_nat (length (round_arr r)) = size
    /\ non_decreasing (round_arr r)
    /\ In (round_target r) (round_arr r)
    /\ exists i,
         outcome_of (round_search r) = Value i
         /\ valid_index (round_arr r) i
         /\ at_index (round_arr r) i = round_target r.
Proof.
  intros Hdraw Hsize Hmax Hrnd. unfold performance_round.
  assert (Int.mul size 10 = size * 10) as Hmul.
  { apply wrap_id. unfold Int.in_range, Int.min_signed, Int.max_signed in *.
    lia. }
  assert (exists xs, generateSortedArray draw size gen = Some (sort xs)
                     /\ length xs = Z.to_nat size) as (xs & -> & Hxs).
  { rewrite generateSortedArray_defined by lia.
    pose proof (fill_draws engine draw (Int.mul size 10)
                  (repeat 0 (Z.to_nat size)) [] gen) as H.
    rewrite repeat_length in H. cbn [length app Z.of_nat] in H.
    rewrite H by (unfold Int.max_signed in *; lia).
    rewrite Hmul.
    destruct (draws_spec engine draw (size * 10) Hdraw ltac:(lia)
                (Z.to_nat size) gen) as (xs & -> & Hlen).
    exists xs. split; [reflexivity|exact Hlen]. }
  pose proof (sort_permutation xs) as Hperm.
  assert (Z.of_nat (length (sort xs)) = size) as Hlen
    by (rewrite <- (Permutation_length Hperm); lia).
  assert (sort xs <> []) as Hne
    by (intros E; rewrite E in Hlen; cbn in Hlen; lia).
  destruct (pick_in_range (sort xs) rnd Hrnd Hne) as (idx & Vidx & Hpick).
  rewrite Hlen in Hpick. rewrite Hpick.
  eexists. split; [reflexivity|]. cbn [round_size round_arr round_target
                                        round_search].
  split; [reflexivity|]. split; [exact Hlen|].
  split; [apply sort_non_decreasing|].
  split; [apply In_at_index; eauto|].
  apply search_finds_element.
  - unfold Int.max_signed in *. lia.
  - apply sort_non_decreasing.
  - exact Vidx.
Qed.

Lemma performance_rounds_spec (engine : Type)
  (draw : Z -> Z -> engine -> option (Z * engine))
  (seed : nat -> engine) (rand : nat -> Z) :
  draw_contract draw -> (forall k, 0 <= rand k) ->
  forall sizes k,
    Forall (fun size => 1 <= size /\ size * 10 <= Int.max_signed) sizes ->
    exists rounds,
      performance_rounds draw sizes k seed rand = Some rounds
      /\ map round_size rounds = sizes
      /\ Forall (fun r =>
                   Z.of_nat (length (round_arr r)) = round_size r
                   /\ non_decreasing (round_arr r)
                   /\ In (round_target r) (round_arr r)
                   /\ exists i,
                        outcome_of (round_search r) = Value i
                        /\ valid_index (round_arr r) i
                        /\ at_index (round_arr r) i = round_target r)
                rounds.
Proof.
  intros Hdraw Hrand. induction sizes as [|size sizes IH]; intros k Hsizes.
  - exists []. cbn. auto.
  - inversion Hsizes as [|? ? [H1 H2] Hrest]; subst.
    cbn [performance_rounds].
    destruct (performance_round_spec engine draw size (seed k) (rand k)
                Hdraw H1 H2 (Hrand k))
      as (r & -> & Hs & Hlen & Hsorted & Hin & Hfound).
    destruct (IH (S k) Hrest) as (rounds & -> & Hmap & Hall).
    exists (r :: rounds). split; [reflexivity|]. split.
    + cbn [map]. rewrite Hs, Hmap. reflexivity.
    + apply Forall_cons; [|exact Hall]. rewrite Hs. auto.
Qed.

(** X10 (every round of the benchmark finds its target).  With a
    distribution that keeps the contract of [uniform_int_distribution]
    and non-negative values of [rand()], [testPerformance] completes its
    five rounds, for the sizes 10, 100, 1000, 10000 and 100000 in this
    order: in each round the generated vector has the size of the round
    and is sorted, the target is read at a valid index and is an element
    of the vector, and the search that is timed returns a valid index
    holding the target, never [-1]. *)
Theorem testPerformance_finds_targets
  (engine : Type) (draw : Z -> Z -> engine -> option (Z * engine))
  (seed : nat -> engine) (rand : nat -> Z) :
  draw_contract draw -> (forall k, 0 <= rand k) ->
  exists rounds,
    testPerformance draw seed rand = Some rounds
    /\ map round_size rounds = inputSizes
    /\ Forall (fun r =>
                 Z.of_nat (length (round_arr r)) = round_size r
                 /\ non_decreasing (round_arr r)
                 /\ In (round_target r) (round_arr r)
                 /\ exists i,
                      outcome_of (round_search r) = Value i
                      /\ valid_index (round_arr r) i
                      /\ at_index (round_arr r) i = round_target r)
              rounds.
Proof.
  intros Hdraw Hrand. unfold testPerformance.
  apply performance_rounds_spec; [assumption..|].
  unfold inputSizes, Int.max_signed.
  repeat (apply Forall_cons; [lia|]). apply Forall_nil.
Qed.

(** The linear congruential engine, seeded by the number of the round. *)
Lemma testPerformance_finds_targets_witness :
  exists rounds,
    testPerformance lcg_draw (fun k => Z.of_nat k + 42)
      (fun k => Z.of_nat k * 7919) = Some rounds
    /\ map round_size rounds = inputSizes
    /\ Forall (fun r =>
                 Z.of_nat (length (round_arr r)) = round_size r
                 /\ non_decreasing (round_arr r)
                 /\ In (round_target r) (round_arr r)
                 /\ exists i,
                      outcome_of (round_search r) = Value i
                      /\ valid_index (round_arr r) i
                      /\ at_index (round_arr r) i = round_target r)
              rounds.
Proof.
  apply (testPerformance_finds_targets Z lcg_draw).
  - exact lcg_draw_contract.
  - intros k. lia.
Defined.
